(** * find_replace_all_console_logs.py: the console-to-logger rewrite

    A shallow embedding of the script [find_replace_all_console_logs.py]
    and the properties of its rewrite.

    Text is a list of characters.  A file is read as UTF-8; every
    character the script's patterns and markers name is ASCII, and no byte
    of a multi-byte UTF-8 sequence is an ASCII byte, so matching over the
    bytes of the text and matching over its code points select the same
    spans.  The model works on [list ascii]. *)

From Stdlib Require Import Ascii String.
From stdpp Require Import gmap strings list fin_maps.

Local Open Scope char_scope.
Local Open Scope list_scope.

Abbreviation text := (list ascii).

(** A literal of the source, as text. *)
Definition s2l (s : string) : text := list_ascii_of_string s.

Definition dquote : ascii := "034".
Definition squote : ascii := "'".
Definition backtick : ascii := "`".
Definition newline : ascii := "010".
Definition rparen : ascii := ")".
Definition backslash : ascii := "\".

(** ** Python [str] operations used by the script *)

Module Str.

(** [starts p s]: [s.startswith(p)]. *)
Fixpoint starts (p s : text) : bool :=
  match p, s with
  | [], _ => true
  | _ :: _, [] => false
  | a :: p', b :: s' => Ascii.eqb a b && starts p' s'
  end.

(** [contains sub s]: the Python test [sub in s]. *)
Fixpoint contains (sub s : text) : bool :=
  starts sub s ||
  match s with
  | [] => false
  | _ :: s' => contains sub s'
  end.

(** [str.replace] for a non-empty [old]: the occurrences are found from the
    left and do not overlap.  [skip] counts the characters of the
    occurrence under replacement that are still to be passed over. *)
Fixpoint replace_from (old new s : text) (skip : nat) : text :=
  match s with
  | [] => []
  | c :: s' =>
      match skip with
      | S k => replace_from old new s' k
      | O =>
          if starts old s
          then new ++ replace_from old new s' (length old - 1)
          else c :: replace_from old new s' 0
      end
  end.

(** [s.replace(old, new)].  With an empty [old] Python puts [new] before
    every character and at the end. *)
Definition replace (old new s : text) : text :=
  match old with
  | [] => new ++ flat_map (fun c => c :: new) s
  | _ :: _ => replace_from old new s 0
  end.

End Str.

(** ** The fragment of Python's [re] the script uses

    The patterns of the script are sequences of literal characters,
    character classes, starred or plussed character classes (greedy or
    lazy) and capture groups that are not nested.  [re] matches by
    backtracking; the first match in its order of preference is the one
    returned.  The script passes [re.MULTILINE], which changes [^] and [$]
    only; its patterns have neither. *)

Module Re.

(** A character class. *)
Inductive cls :=
  | Dot                      (* .  : any character but a newline *)
  | NoneOf (l : list ascii)  (* [^...] *)
  | OneOf (l : list ascii).  (* [...] *)

Definition mem (a : ascii) (l : list ascii) : bool :=
  existsb (Ascii.eqb a) l.

Definition accepts (k : cls) (a : ascii) : bool :=
  match k with
  | Dot => negb (Ascii.eqb a newline)
  | NoneOf l => negb (mem a l)
  | OneOf l => mem a l
  end.

Inductive item :=
  | Chr (c : ascii)   (* a literal character *)
  | One (k : cls)     (* a class, once *)
  | Star (k : cls)    (* k*  greedy *)
  | Plus (k : cls)    (* k+  greedy *)
  | LazyStar (k : cls)(* k*? *)
  | Open              (* ( *)
  | Close.            (* ) *)

Abbreviation regex := (list item).

(** The literal characters of a string, as a pattern. *)
Definition lit (s : string) : regex := map Chr (s2l s).

(** What a match consumed, with the group brackets in place. *)
Inductive tok :=
  | TChr (a : ascii)
  | TOpen
  | TClose.

Abbreviation result := (option (list tok * text)).

Definition push (t : tok) (r : result) : result :=
  match r with
  | Some (ts, rest) => Some (t :: ts, rest)
  | None => None
  end.

(** Greedy repetition: take a character of the class and go on; when
    that fails, continue with the rest of the pattern here. *)
Fixpoint greedy (k : cls) (cont : text -> result) (s : text) : result :=
  match s with
  | a :: s' =>
      if accepts k a
      then match push (TChr a) (greedy k cont s') with
           | Some r => Some r
           | None => cont s
           end
      else cont s
  | [] => cont s
  end.

(** Lazy repetition: continue with the rest of the pattern first; when
    that fails, take one more character of the class. *)
Fixpoint lazy (k : cls) (cont : text -> result) (s : text) : result :=
  match cont s with
  | Some r => Some r
  | None =>
      match s with
      | a :: s' => if accepts k a then push (TChr a) (lazy k cont s') else None
      | [] => None
      end
  end.

(** [run p s]: match [p] at the start of [s] ([pattern.match] at a
    position); the tokens consumed and the text left. *)
Fixpoint run (p : regex) (s : text) {struct p} : result :=
  match p with
  | [] => Some ([], s)
  | Chr c :: p' =>
      match s with
      | a :: s' => if Ascii.eqb a c then push (TChr a) (run p' s') else None
      | [] => None
      end
  | One k :: p' =>
      match s with
      | a :: s' => if accepts k a then push (TChr a) (run p' s') else None
      | [] => None
      end
  | Star k :: p' => greedy k (run p') s
  | Plus k :: p' =>
      match s with
      | a :: s' =>
          if accepts k a then push (TChr a) (greedy k (run p') s') else None
      | [] => None
      end
  | LazyStar k :: p' => lazy k (run p') s
  | Open :: p' => push TOpen (run p' s)
  | Close :: p' => push TClose (run p' s)
  end.

(** The text of a match: [m.group(0)]. *)
Fixpoint chars (ts : list tok) : text :=
  match ts with
  | [] => []
  | TChr a :: ts' => a :: chars ts'
  | _ :: ts' => chars ts'
  end.

(** The characters up to the closing bracket of the group. *)
Fixpoint until_close (ts : list tok) : text :=
  match ts with
  | [] => []
  | TChr a :: ts' => a :: until_close ts'
  | TOpen :: ts' => until_close ts'
  | TClose :: _ => []
  end.

(** The groups of a match, [m.groups()], in the order they open. *)
Fixpoint groups (ts : list tok) : list text :=
  match ts with
  | [] => []
  | TOpen :: ts' => until_close ts' :: groups ts'
  | _ :: ts' => groups ts'
  end.

(** A replacement template: literal characters and group references. *)
Inductive titem :=
  | TLit (c : ascii)
  | TRef (n : nat).   (* \n, counted from 1 *)

Abbreviation template := (list titem).

Definition tlit (s : string) : template := map TLit (s2l s).

(** [m.expand(template)]. *)
Fixpoint expand (t : template) (gs : list text) : text :=
  match t with
  | [] => []
  | TLit c :: t' => c :: expand t' gs
  | TRef n :: t' => nth (n - 1) gs [] ++ expand t' gs
  end.

(** The scan shared by [findall] and [sub]: matches are searched from the
    left, each search starting where the previous match ended.  [skip]
    counts the characters of the last match still to be passed over.  A
    match is tried at the end of the text too. *)
Fixpoint matches_from (p : regex) (s : text) (skip : nat) : list (list tok) :=
  match s with
  | [] =>
      match run p [] with
      | Some (ts, _) => [ts]
      | None => []
      end
  | _ :: s' =>
      match skip with
      | S k => matches_from p s' k
      | O =>
          match run p s with
          | Some (ts, _) => ts :: matches_from p s' (length (chars ts) - 1)
          | None => matches_from p s' 0
          end
      end
  end.

(** What [re.findall] returns for each match: the match with no group,
    the group with one.  (With more groups it is a tuple; the script only
    takes the length of such a list.) *)
Definition found (ts : list tok) : text :=
  match groups ts with
  | [] => chars ts
  | g :: _ => g
  end.

(** [re.findall(p, s)]. *)
Definition findall (p : regex) (s : text) : list text :=
  map found (matches_from p s 0).

(** [re.sub(p, t, s)]: the text between the matches is kept, each match
    is replaced by the expansion of the template.  An empty match leaves
    the character after it in place. *)
Fixpoint sub_from (p : regex) (t : template) (s : text) (skip : nat) : text :=
  match s with
  | [] =>
      match run p [] with
      | Some (ts, _) => expand t (groups ts)
      | None => []
      end
  | c :: s' =>
      match skip with
      | S k => sub_from p t s' k
      | O =>
          match run p s with
          | Some (ts, _) =>
              expand t (groups ts)
                ++ match chars ts with [] => [c] | _ :: _ => [] end
                ++ sub_from p t s' (length (chars ts) - 1)
          | None => c :: sub_from p t s' 0
          end
      end
  end.

Definition sub (p : regex) (t : template) (s : text) : text :=
  sub_from p t s 0.

End Re.

(** ** The script *)

Import Re.

(** [has_logger_import]: one of the two marker substrings is in the text. *)
Definition marker_here : text := s2l "from " ++ dquote :: s2l "./Logger" ++ [dquote].
Definition marker_up : text := s2l "from " ++ dquote :: s2l "../Logger" ++ [dquote].

Definition has_logger_import (content : text) : bool :=
  Str.contains marker_here content || Str.contains marker_up content.

(** The sub-directories of [nodes/] the script names. *)
Definition subdirs : list text :=
  [s2l "Function/"; s2l "CallFunction/"; s2l "ReturnFromFunction/";
   s2l "ConfigureFunctions/"].

Definition import_here : text :=
  s2l "import { functionRegistryLogger as logger } " ++ marker_here.
Definition import_up : text :=
  s2l "import { functionRegistryLogger as logger } " ++ marker_up.

(** [import_line], chosen by the place of the file. *)
Definition import_line (file_path : string) : text :=
  if Str.contains (s2l "nodes/") (s2l file_path)
     && negb (existsb (fun subdir => Str.contains subdir (s2l file_path)) subdirs)
  then import_here
  else import_up.

Definition quotes : cls := OneOf [dquote; squote].

(** [(import.*?from.*?["\'].*?["\'])] *)
Definition import_pattern : regex :=
  [Open] ++ lit "import" ++ [LazyStar Dot] ++ lit "from"
    ++ [LazyStar Dot; One quotes; LazyStar Dot; One quotes; Close].

(** The rewrite rules, in the order of the script. *)
Definition patterns : list (regex * template) :=
  [ (* console.log with template literals *)
    (lit "console.log(`" ++ [Open; Star (NoneOf [backtick]); Close] ++ lit "`)",
     tlit "logger.log(`" ++ [TRef 1] ++ tlit "`)");
    (* console.log with string literals *)
    (lit "console.log(" ++ [Chr dquote; Open; Star (NoneOf [dquote]); Close; Chr dquote] ++ lit ")",
     tlit "logger.log(" ++ [TLit dquote; TRef 1; TLit dquote] ++ tlit ")");
    (lit "console.log('" ++ [Open; Star (NoneOf [squote]); Close] ++ lit "')",
     tlit "logger.log('" ++ [TRef 1] ++ tlit "')");
    (* console.log with variables/expressions *)
    (lit "console.log(" ++ [Open; Plus (NoneOf [rparen]); Close] ++ lit ")",
     tlit "logger.log(" ++ [TRef 1] ++ tlit ")");
    (* console.error with template literals *)
    (lit "console.error(`" ++ [Open; Star (NoneOf [backtick]); Close] ++ lit "`"
       ++ [Open; Star (NoneOf [rparen]); Close] ++ lit ")",
     tlit "logger.error(`" ++ [TRef 1] ++ tlit "`" ++ [TRef 2] ++ tlit ")");
    (* console.error with string literals *)
    (lit "console.error(" ++ [Chr dquote; Open; Star (NoneOf [dquote]); Close; Chr dquote] ++ lit ")",
     tlit "logger.error(" ++ [TLit dquote; TRef 1; TLit dquote] ++ tlit ")");
    (lit "console.error('" ++ [Open; Star (NoneOf [squote]); Close] ++ lit "')",
     tlit "logger.error('" ++ [TRef 1] ++ tlit "')");
    (* console.error with variables/expressions *)
    (lit "console.error(" ++ [Open; Plus (NoneOf [rparen]); Close] ++ lit ")",
     tlit "logger.error(" ++ [TRef 1] ++ tlit ")");
    (* console.warn with template literals *)
    (lit "console.warn(`" ++ [Open; Star (NoneOf [backtick]); Close] ++ lit "`"
       ++ [Open; Star (NoneOf [rparen]); Close] ++ lit ")",
     tlit "logger.warn(`" ++ [TRef 1] ++ tlit "`" ++ [TRef 2] ++ tlit ")");
    (* console.warn with string literals *)
    (lit "console.warn(" ++ [Chr dquote; Open; Star (NoneOf [dquote]); Close; Chr dquote] ++ lit ")",
     tlit "logger.warn(" ++ [TLit dquote; TRef 1; TLit dquote] ++ tlit ")");
    (lit "console.warn('" ++ [Open; Star (NoneOf [squote]); Close] ++ lit "')",
     tlit "logger.warn('" ++ [TRef 1] ++ tlit "')");
    (* console.warn with variables/expressions *)
    (lit "console.warn(" ++ [Open; Plus (NoneOf [rparen]); Close] ++ lit ")",
     tlit "logger.warn(" ++ [TRef 1] ++ tlit ")") ].

(** What the script prints, line by line. *)
Inductive line :=
  | Processing (file_path : string)
  | AddedImport (import_line : text)
  | Replaced (matches : nat) (pattern : regex)
  | ChangesMade (changes_made : nat) (file_path : string)
  | NoChangesNeeded (file_path : string)
  | FileNotFound (file_path : string)
  | TotalChanges (total_changes : nat)
  | AllReplaced.

(** The local variables of [process_file] that change along the way, and
    the lines printed so far. *)
Record acc := Acc {
  content : text;
  changes_made : nat;
  printed : list line
}.

(** Lines 20-48: the logger import is added after the last import. *)
Definition add_logger_import (file_path : string) (a : acc) : acc :=
  if has_logger_import (content a) then a
  else
    let imports := findall import_pattern (content a) in
    match last imports with
    | Some last_import =>
        let il := import_line file_path in
        Acc (Str.replace last_import (last_import ++ newline :: il) (content a))
            (changes_made a + 1)
            (printed a ++ [AddedImport il])
    | None => a
    end.

(** Lines 75-81: one turn of the loop over the rules. *)
Definition apply_rule (a : acc) (rule : regex * template) : acc :=
  let new_content := sub rule.1 rule.2 (content a) in
  if decide (new_content = content a) then a
  else
    let matches := length (findall rule.1 (content a)) in
    Acc new_content (changes_made a + matches)
        (printed a ++ [Replaced matches rule.1]).

(** [rewrite file_path text]: the body of [process_file] between the read
    and the write. *)
Definition rewrite (file_path : string) (original_content : text) : acc :=
  fold_left apply_rule patterns
    (add_logger_import file_path
       (Acc original_content 0 [Processing file_path])).

(** The files and what the run did to the outside: printed lines and
    files written, latest last. *)
Inductive effect :=
  | Print (l : line)
  | WriteFile (file_path : string) (content : text).

Record world := World {
  files : gmap string text;
  trace : list effect
}.

Inductive outcome (A : Type) :=
  | Returned (a : A)
  | FileNotFoundError (file_path : string).
Arguments Returned {A} a.
Arguments FileNotFoundError {A} file_path.

Definition print_all (ls : list line) (w : world) : world :=
  World (files w) (trace w ++ map Print ls).

Definition write_file (file_path : string) (c : text) (w : world) : world :=
  World (<[file_path := c]> (files w)) (trace w ++ [WriteFile file_path c]).

(** [process_file(file_path)].  Opening a file that is not there raises. *)
Definition process_file (file_path : string) (w : world) : world * outcome nat :=
  match files w !! file_path with
  | None => (print_all [Processing file_path] w, FileNotFoundError file_path)
  | Some original_content =>
      let a := rewrite file_path original_content in
      if decide (content a = original_content)
      then (print_all (printed a ++ [NoChangesNeeded file_path]) w, Returned 0)
      else (print_all [ChangesMade (changes_made a) file_path]
              (write_file file_path (content a) (print_all (printed a) w)),
            Returned (changes_made a))
  end.

Definition files_to_process : list string :=
  [ "nodes/Function/Function.node.ts";
    "nodes/CallFunction/CallFunction.node.ts";
    "nodes/ReturnFromFunction/ReturnFromFunction.node.ts";
    "nodes/ConfigureFunctions/ConfigureFunctions.node.ts" ]%string.

(** The loop of [main] over a list of paths. *)
Fixpoint main_loop (paths : list string) (total_changes : nat) (w : world)
  : world * outcome nat :=
  match paths with
  | [] => (w, Returned total_changes)
  | file_path :: paths' =>
      match files w !! file_path with          (* os.path.exists *)
      | Some _ =>
          match process_file file_path w with
          | (w', Returned changes) => main_loop paths' (total_changes + changes) w'
          | (w', FileNotFoundError p) => (w', FileNotFoundError p)
          end
      | None => main_loop paths' total_changes (print_all [FileNotFound file_path] w)
      end
  end.

(** [main] over a list of paths: the loop, then the two closing lines. *)
Definition main_on (paths : list string) (w : world) : world * outcome unit :=
  match main_loop paths 0 w with
  | (w', Returned total_changes) =>
      (print_all [TotalChanges total_changes; AllReplaced] w', Returned tt)
  | (w', FileNotFoundError p) => (w', FileNotFoundError p)
  end.

(** [main()]. *)
Definition main : world -> world * outcome unit := main_on files_to_process.

(** ** Reading the printed lines *)

(** The import insertions a list of printed lines reports. *)
Fixpoint imports_added (ls : list line) : nat :=
  match ls with
  | [] => 0
  | AddedImport _ :: ls' => 1 + imports_added ls'
  | _ :: ls' => imports_added ls'
  end.

(** The sum of the match counts the [Replaced] lines report. *)
Fixpoint replaced_total (ls : list line) : nat :=
  match ls with
  | [] => 0
  | Replaced n _ :: ls' => n + replaced_total ls'
  | _ :: ls' => replaced_total ls'
  end.

(** The files a trace wrote. *)
Fixpoint written (tr : list effect) : list string :=
  match tr with
  | [] => []
  | WriteFile p _ :: tr' => p :: written tr'
  | Print _ :: tr' => written tr'
  end.

(** The change counts a trace reports, file by file: the count of a
    [ChangesMade] line, 0 for a [NoChangesNeeded] line. *)
Fixpoint reported_counts (tr : list effect) : list nat :=
  match tr with
  | [] => []
  | Print (ChangesMade n _) :: tr' => n :: reported_counts tr'
  | Print (NoChangesNeeded _) :: tr' => 0 :: reported_counts tr'
  | _ :: tr' => reported_counts tr'
  end.

(** The paths a trace reports as not found. *)
Fixpoint not_found (tr : list effect) : list string :=
  match tr with
  | [] => []
  | Print (FileNotFound p) :: tr' => p :: not_found tr'
  | _ :: tr' => not_found tr'
  end.

(** The count kept in [changes_made] is the count the printed lines add up
    to: one for an added import, the matches of each [Replaced] line. *)
Definition balanced (a : acc) : Prop :=
  changes_made a = imports_added (printed a) + replaced_total (printed a).

(** ** Sample texts *)

(** A text that already imports the logger, has another import and a call. *)
Definition marked_text : text :=
  import_up ++ newline :: s2l "import a from 'a'" ++ newline :: s2l "console.log(a)".

(** A call on an object whose name only ends in [console], after a
    logger-import marker. *)
Definition unanchored_call : text :=
  s2l "myconsole.log(" ++ dquote :: s2l "x" ++ dquote :: s2l ")".
Definition unanchored_text : text := marker_here ++ newline :: unanchored_call.
Definition unanchored_result : text :=
  s2l "mylogger.log(" ++ dquote :: s2l "x" ++ dquote :: s2l ")".

(** A world with one file. *)
Definition one_file (file_path : string) (c : text) : world :=
  World {[ file_path := c ]} [].

(** What [process_file] returns for a file with content [c]. *)
Definition file_changes (file_path : string) (c : text) : nat :=
  let a := rewrite file_path c in
  if decide (content a = c) then 0 else changes_made a.

(** The lines [process_file] prints before it decides to write. *)
Definition quiet (l : line) : Prop :=
  match l with
  | Processing _ | AddedImport _ | Replaced _ _ => True
  | _ => False
  end.

(** The variables/expressions rule of a call family, and the calls it
    is about. *)
Definition catch_all (family : string) : regex * template :=
  (lit ("console." +:+ family +:+ "(") ++ [Open; Plus (NoneOf [rparen]); Close] ++ lit ")",
   tlit ("logger." +:+ family +:+ "(") ++ [TRef 1] ++ tlit ")").

Definition console_call (family : string) (arg : text) : text :=
  s2l ("console." +:+ family +:+ "(") ++ arg ++ [rparen].

Definition logger_call (family : string) (arg : text) : text :=
  s2l ("logger." +:+ family +:+ "(") ++ arg ++ [rparen].

(** The other reading of the argument of a call: the text up to the first
    closing parenthesis that no backslash stands before. *)
Fixpoint upto_unescaped_close (s : text) : option text :=
  match s with
  | [] => None
  | c :: s' =>
      if Ascii.eqb c rparen then Some []
      else if Ascii.eqb c backslash
           then match s' with
                | [] => None
                | d :: s'' => option_map (fun r => c :: d :: r) (upto_unescaped_close s'')
                end
           else option_map (cons c) (upto_unescaped_close s')
  end.

(** A call with a backslash before a closing parenthesis. *)
Definition escaped_call : text := s2l "console.log(a\)b)".

(** Tokens put before the tokens of a result. *)
Definition pushes (ts : list tok) (r : result) : result :=
  match r with
  | Some (ts', rest) => Some (ts ++ ts', rest)
  | None => None
  end.

(** A text in which the last import stands twice, once in a comment. *)
Definition import_bar : text := s2l "import foo from " ++ dquote :: s2l "bar" ++ [dquote].
Definition duplicated_import_text : text :=
  s2l "// " ++ import_bar ++ newline :: import_bar ++ [newline].

(** The places at which [sub] occurs in [s], counted. *)
Fixpoint occurrences (sub s : text) : nat :=
  (if Str.starts sub s then 1 else 0) +
  match s with
  | [] => 0
  | _ :: s' => occurrences sub s'
  end.

(** [relabel s t]: [t] is [s] with [console] replaced by [logger] at some
    places. *)
Inductive relabel : text -> text -> Prop :=
  | relabel_nil : relabel [] []
  | relabel_keep c s t : relabel s t -> relabel (c :: s) (c :: t)
  | relabel_swap s t : relabel s t -> relabel (s2l "console" ++ s) (s2l "logger" ++ t).

(** [relabels rule]: every match of the rule starts with [console] and is
    replaced by itself with [logger] in its place. *)
Definition relabels (rule : regex * template) : Prop :=
  forall s ts rest,
    run rule.1 s = Some (ts, rest) ->
    exists y, chars ts = s2l "console" ++ y
              /\ expand rule.2 (groups ts) = s2l "logger" ++ y.

(** [may_start q c]: a match of [q] may begin with the character [c]. *)
Fixpoint may_start (q : regex) (c : ascii) : bool :=
  match q with
  | [] => true
  | Chr d :: _ => Ascii.eqb c d
  | One k :: _ | Plus k :: _ => accepts k c
  | Star k :: q' | LazyStar k :: q' => accepts k c || may_start q' c
  | Open :: q' | Close :: q' => may_start q' c
  end.

(** [steady q]: a pattern whose matches a change of [console] into
    [logger] cannot bring about: it has no literal [l], its classes taken
    once refuse [l], its lazy stars pass over [console], and what follows
    a lazy star cannot begin inside [logger]. *)
Fixpoint steady (q : regex) : bool :=
  match q with
  | [] => true
  | Chr c :: q' => negb (Ascii.eqb "l" c) && steady q'
  | One k :: q' => negb (accepts k "l") && steady q'
  | LazyStar k :: q' =>
      forallb (accepts k) (s2l "console")
      && forallb (fun c => negb (may_start q' c)) (s2l "logger")
      && steady q'
  | Open :: q' | Close :: q' => steady q'
  | Star _ :: _ | Plus _ :: _ => false
  end.

(** A call inside the argument of a call. *)
Definition nested_call : text := s2l "console.log(console.log(x))".

(** A text with an import and a call. *)
Definition plain_text : text :=
  s2l "import a from 'a'" ++ newline :: s2l "console.log(x)".

(** The three literals a rule of the script can start a match with. *)
Definition call_heads : list text :=
  [s2l "console.log("; s2l "console.error("; s2l "console.warn("].

(** How often a character stands in a text. *)
Fixpoint count_char (c : ascii) (s : text) : nat :=
  match s with
  | [] => 0
  | a :: s' => (if Ascii.eqb c a then 1 else 0) + count_char c s'
  end.

(** A text with a call of a method the rules do not name. *)
Definition info_text : text :=
  s2l "console.info(" ++ dquote :: s2l "x" ++ dquote :: s2l "); console.debug(y)".

(** A text of three lines with two calls. *)
Definition two_calls_text : text :=
  s2l "console.log(a)" ++ newline :: s2l "f(x);" ++ newline :: s2l "console.warn(`w`, b)".

(** An import over several lines, then one on a line with two kinds of
    quote. *)
Definition multi_line_import : text :=
  s2l "import {" ++ newline :: s2l "  a" ++ newline :: s2l "} from 'a'" ++ newline
    :: s2l "import b from " ++ dquote :: s2l "b' c" ++ [dquote].

(** A call with parentheses inside its argument, in a line of code. *)
Definition paren_call_pre : text := s2l "if (ok) { ".
Definition paren_call_rest : text := s2l "); }".

(** The import line that would go two levels up. *)
Definition import_two_up : text :=
  s2l "import { functionRegistryLogger as logger } from "
    ++ dquote :: s2l "../../Logger" ++ [dquote].

(** * Properties *)

(** ** Text *)

Section StrFacts.

Lemma s2l_app (a b : string) : s2l (a +:+ b) = s2l a ++ s2l b.
Proof.
  unfold s2l. induction a as [|c a IH]; simpl; [done|]. by rewrite IH.
Qed.

Lemma starts_iff (p s : text) : Str.starts p s = true <-> exists r, s = p ++ r.
Proof.
  revert s. induction p as [|a p IH]; intros s; simpl.
  - split; [intros _; by exists s | done].
  - destruct s as [|b s].
    + split; [done | intros [r Hr]; discriminate].
    + rewrite andb_true_iff, IH. split.
      * intros [Hab [r ->]]. apply Ascii.eqb_eq in Hab as ->. by exists r.
      * intros [r Hr]. injection Hr as -> ->. split; [apply Ascii.eqb_refl | by exists r].
Qed.

Lemma starts_app (p r : text) : Str.starts p (p ++ r) = true.
Proof. apply starts_iff. by exists r. Qed.

Lemma contains_iff (sub s : text) :
  Str.contains sub s = true <-> exists a b, s = a ++ sub ++ b.
Proof.
  induction s as [|c s IH]; simpl.
  - rewrite orb_false_r, starts_iff. split.
    + intros [r Hr]. by exists [], r.
    + intros [a [b Hab]]. destruct a; simpl in Hab.
      * by exists b.
      * discriminate.
  - rewrite orb_true_iff, IH, starts_iff. split.
    + intros [[r Hr] | [a [b Hab]]].
      * by exists [], r.
      * exists (c :: a), b. by rewrite Hab.
    + intros [a [b Hab]]. destruct a as [|c' a]; simpl in Hab.
      * left. by exists b.
      * right. injection Hab as -> ->. by exists a, b.
Qed.

Lemma contains_app (sub a b : text) : Str.contains sub (a ++ sub ++ b) = true.
Proof. apply contains_iff. by exists a, b. Qed.

End StrFacts.

(** ** Matching *)

Section ReFacts.

Lemma findall_nil (p : regex) (s : text) :
  findall p s = [] <-> matches_from p s 0 = [].
Proof.
  unfold findall. split; [apply map_eq_nil | by intros ->].
Qed.

(** A scan that finds no match leaves the text as it is. *)
Lemma sub_from_no_match (p : regex) (t : template) (s : text) (skip : nat) :
  matches_from p s skip = [] -> sub_from p t s skip = drop skip s.
Proof.
  revert skip. induction s as [|c s IH]; intros skip; simpl.
  - destruct (run p []) as [[ts rest]|]; [done|]. by destruct skip.
  - destruct skip as [|k]; [|apply IH].
    destruct (run p (c :: s)) as [[ts rest]|]; [done|].
    intros H. rewrite (IH 0 H). by rewrite drop_0.
Qed.

Lemma sub_no_match (p : regex) (t : template) (s : text) :
  findall p s = [] -> sub p t s = s.
Proof.
  intros H. unfold sub. rewrite sub_from_no_match; [apply drop_0|].
  by apply findall_nil.
Qed.

End ReFacts.

(** ** The loop over the rules *)

Section Rules.

Lemma apply_rule_content (a : acc) (rule : regex * template) :
  content (apply_rule a rule) = sub rule.1 rule.2 (content a).
Proof.
  unfold apply_rule. destruct (decide _) as [E|E]; simpl; [by rewrite E | done].
Qed.

Lemma apply_rule_unchanged (a : acc) (rule : regex * template) :
  findall rule.1 (content a) = [] -> apply_rule a rule = a.
Proof.
  intros H. unfold apply_rule. rewrite (sub_no_match _ _ _ H).
  by destruct (decide _).
Qed.

Lemma imports_added_app (l1 l2 : list line) :
  imports_added (l1 ++ l2) = imports_added l1 + imports_added l2.
Proof. induction l1 as [|[] l1 IH]; simpl; lia. Qed.

Lemma replaced_total_app (l1 l2 : list line) :
  replaced_total (l1 ++ l2) = replaced_total l1 + replaced_total l2.
Proof. induction l1 as [|[] l1 IH]; simpl; lia. Qed.

Lemma apply_rule_balanced (a : acc) (rule : regex * template) :
  balanced a -> balanced (apply_rule a rule).
Proof.
  unfold balanced, apply_rule. intros H. destruct (decide _); simpl; [done|].
  rewrite imports_added_app, replaced_total_app. simpl. lia.
Qed.

Lemma add_logger_import_balanced (file_path : string) (a : acc) :
  balanced a -> balanced (add_logger_import file_path a).
Proof.
  unfold balanced, add_logger_import. intros H.
  destruct (has_logger_import _); [done|].
  destruct (last _); simpl; [|done].
  rewrite imports_added_app, replaced_total_app. simpl. lia.
Qed.

Lemma fold_rules_balanced (rules : list (regex * template)) (a : acc) :
  balanced a -> balanced (fold_left apply_rule rules a).
Proof.
  revert a. induction rules as [|r rules IH]; intros a H; simpl; [done|].
  by apply IH, apply_rule_balanced.
Qed.

Lemma rewrite_balanced (file_path : string) (original_content : text) :
  balanced (rewrite file_path original_content).
Proof.
  apply fold_rules_balanced, add_logger_import_balanced. reflexivity.
Qed.

Lemma fold_rules_imports_added (rules : list (regex * template)) (a : acc) :
  imports_added (printed (fold_left apply_rule rules a)) = imports_added (printed a).
Proof.
  revert a. induction rules as [|r rules IH]; intros a; simpl; [done|].
  rewrite IH. unfold apply_rule. destruct (decide _); simpl; [done|].
  rewrite imports_added_app. simpl. lia.
Qed.

Lemma fold_rules_no_import_line (rules : list (regex * template)) (a : acc) (l : text) :
  AddedImport l ∉ printed a ->
  AddedImport l ∉ printed (fold_left apply_rule rules a).
Proof.
  revert a. induction rules as [|r rules IH]; intros a Hl; simpl; [done|].
  apply IH. unfold apply_rule. destruct (decide _); simpl; [done|].
  rewrite elem_of_app, list_elem_of_singleton. intros [?|?]; [done | discriminate].
Qed.

Lemma fold_rules_unchanged (rules : list (regex * template)) (a : acc) :
  Forall (fun rule => findall rule.1 (content a) = []) rules ->
  fold_left apply_rule rules a = a.
Proof.
  induction 1 as [|r rules Hr _ IH]; simpl; [done|].
  by rewrite (apply_rule_unchanged _ _ Hr).
Qed.

End Rules.

(** ** The logger import *)

Section LoggerImport.

(** C3: when the text already holds one of the two logger-import markers,
    the import step leaves the text, the count and the printed lines as
    they are, whatever else the text holds; the whole rewrite then reports
    no added import. *)
Theorem logger_import_not_repeated (file_path : string) (a : acc) :
  has_logger_import (content a) = true ->
  add_logger_import file_path a = a
  /\ (forall l, AddedImport l ∉ printed a ->
        AddedImport l ∉ printed (fold_left apply_rule patterns (add_logger_import file_path a)))
  /\ imports_added (printed (fold_left apply_rule patterns (add_logger_import file_path a)))
     = imports_added (printed a).
Proof.
  intros H.
  assert (E : add_logger_import file_path a = a).
  { unfold add_logger_import. by rewrite H. }
  rewrite E. split; [done|]. split; [|apply fold_rules_imports_added].
  intros l. apply fold_rules_no_import_line.
Qed.

Lemma logger_import_not_repeated_witness :
  has_logger_import marked_text = true
  /\ add_logger_import "nodes/Function/x.ts" (Acc marked_text 0 []) = Acc marked_text 0 [].
Proof.
  split; [reflexivity|].
  apply (logger_import_not_repeated "nodes/Function/x.ts" (Acc marked_text 0 [])).
  reflexivity.
Defined.

(** C4 (as amended): the inserted line goes by the path.  A path that
    contains [nodes/Function/foo.ts] gets the [../Logger] line, one level
    up; the path [nodes/foo.ts] gets the [./Logger] line, the same
    directory; and whenever the import step changes anything, the line it
    inserts after the last import is the one chosen by the path. *)
Theorem import_line_by_path :
  (forall pre post : string,
     import_line (pre +:+ "nodes/Function/foo.ts" +:+ post) = import_up)
  /\ import_line "nodes/foo.ts" = import_here
  /\ (forall (file_path : string) (a : acc),
        add_logger_import file_path a <> a ->
        exists last_import,
          last (findall import_pattern (content a)) = Some last_import
          /\ add_logger_import file_path a =
             Acc (Str.replace last_import
                    (last_import ++ newline :: import_line file_path) (content a))
                 (changes_made a + 1)
                 (printed a ++ [AddedImport (import_line file_path)])).
Proof.
  split; [|split].
  - intros pre post. unfold import_line.
    assert (H : Str.contains (s2l "Function/")
                  (s2l (pre +:+ "nodes/Function/foo.ts" +:+ post)) = true).
    { rewrite !s2l_app.
      change (s2l "nodes/Function/foo.ts")
        with (s2l "nodes/" ++ s2l "Function/" ++ s2l "foo.ts").
      apply contains_iff. exists (s2l pre ++ s2l "nodes/"), (s2l "foo.ts" ++ s2l post).
      by rewrite <- !app_assoc. }
    replace (existsb _ subdirs) with true; [by rewrite andb_false_r|].
    symmetry. apply existsb_exists. exists (s2l "Function/").
    split; [by left | exact H].
  - reflexivity.
  - intros file_path a Hne. unfold add_logger_import in *.
    destruct (has_logger_import _); [done|].
    destruct (last _) as [last_import|]; [|done]. by exists last_import.
Qed.

Lemma import_line_by_path_witness :
  import_line ("src/" +:+ "nodes/Function/foo.ts" +:+ "")%string = import_up
  /\ content (add_logger_import "nodes/foo.ts" (Acc (s2l "import a from 'a'") 0 []))
     = s2l "import a from 'a'" ++ newline :: import_here.
Proof.
  split; [apply (proj1 import_line_by_path)|].
  destruct (proj2 (proj2 import_line_by_path) "nodes/foo.ts"%string
              (Acc (s2l "import a from 'a'") 0 [])) as [li [Hl ->]].
  - vm_compute. discriminate.
  - vm_compute in Hl. injection Hl as <-. reflexivity.
Defined.

(** C4, the claim as stated fails: for [nodes/Function/foo.ts] the line
    inserted goes one level up, [../Logger], not two, [../../Logger]; for
    [nodes/foo.ts] it stays in the directory, [./Logger], and goes no
    level up. *)
Lemma import_line_not_two_up :
  import_line "nodes/Function/foo.ts" = import_up
  /\ import_line "nodes/Function/foo.ts" <> import_two_up
  /\ occurrences (s2l "../") (import_line "nodes/Function/foo.ts") = 1
  /\ import_line "nodes/foo.ts" = import_here
  /\ import_line "nodes/foo.ts" <> import_up
  /\ occurrences (s2l "../") (import_line "nodes/foo.ts") = 0.
Proof. vm_compute. by split_and!. Qed.

End LoggerImport.

(** ** Counting and persisting *)

Section Persist.



(** C7: for a file that is there, [process_file] returns 0 and writes
    nothing exactly when the rewritten text is the original one; when the
    two differ it writes the rewritten text to the file and returns the
    count, which is one for the added import (when one was added) plus the
    matches the [Replaced] lines report. *)
Theorem persist_iff_changed (file_path : string) (original_content : text) (w : world) :
  files w !! file_path = Some original_content ->
  let a := rewrite file_path original_content in
  let r := process_file file_path w in
  (r.2 = Returned 0 /\ written (trace r.1) = written (trace w)
   <-> content a = original_content)
  /\ (content a = original_content -> files r.1 = files w)
  /\ (content a <> original_content ->
      r.2 = Returned (changes_made a)
      /\ files r.1 = <[file_path := content a]> (files w)
      /\ written (trace r.1) = written (trace w) ++ [file_path])
  /\ changes_made a = imports_added (printed a) + replaced_total (printed a)
  /\ imports_added (printed a) <= 1.
Proof.
  intros Hf a r.
  assert (Hw : forall ls tr, written (tr ++ map Print ls) = written tr).
  { intros ls tr. induction tr as [|[] tr IH]; simpl; [|done|by rewrite IH].
    induction ls; simpl; done. }
  assert (Hw' : forall tr p c, written (tr ++ [WriteFile p c]) = written tr ++ [p]).
  { intros tr p c. induction tr as [|[] tr IH]; simpl; [done|done|by rewrite IH]. }
  assert (Hb : changes_made a = imports_added (printed a) + replaced_total (printed a)).
  { apply (rewrite_balanced file_path original_content). }
  assert (Hi : imports_added (printed a) <= 1).
  { unfold a, rewrite. rewrite fold_rules_imports_added.
    unfold add_logger_import. cbn [content printed changes_made].
    destruct (has_logger_import _); [cbn; lia|].
    destruct (last _); cbn [printed]; [|cbn; lia].
    rewrite imports_added_app. cbn. lia. }
  unfold r, process_file. rewrite Hf. fold a. clearbody a.
  destruct (decide (content a = original_content)) as [E|E]; cbn [fst snd].
  - unfold print_all. cbn [files trace]. rewrite Hw. by repeat split.
  - unfold print_all, write_file. cbn [files trace]. rewrite Hw, Hw', Hw.
    repeat split; try done.
    intros [_ Hx]. apply (f_equal length) in Hx. rewrite length_app in Hx.
    cbn in Hx. lia.
Qed.

Lemma persist_iff_changed_witness :
  (process_file "nodes/x.ts" (one_file "nodes/x.ts" (s2l "console.log(x)"))).2
  = Returned 1.
Proof.
  destruct (persist_iff_changed "nodes/x.ts" (s2l "console.log(x)")
              (one_file "nodes/x.ts" (s2l "console.log(x)")))
    as (_ & _ & H & _); [apply lookup_singleton_eq|].
  destruct H as [-> _]; [vm_compute; discriminate | vm_compute; reflexivity].
Defined.

(** C9: a text in which the import pattern and the patterns of all the
    rules find nothing comes out as it went in, with count 0 and no line
    printed but the first; no import is added, and [process_file] returns
    0 without writing. *)
Theorem nothing_to_rewrite (file_path : string) (original_content : text) (w : world) :
  findall import_pattern original_content = [] ->
  Forall (fun rule => findall rule.1 original_content = []) patterns ->
  rewrite file_path original_content = Acc original_content 0 [Processing file_path]
  /\ add_logger_import file_path (Acc original_content 0 [Processing file_path])
     = Acc original_content 0 [Processing file_path]
  /\ (files w !! file_path = Some original_content ->
      process_file file_path w
      = (print_all [Processing file_path; NoChangesNeeded file_path] w, Returned 0)).
Proof.
  intros Hi Hr.
  assert (Ha : add_logger_import file_path (Acc original_content 0 [Processing file_path])
               = Acc original_content 0 [Processing file_path]).
  { unfold add_logger_import. cbn [content]. rewrite Hi.
    by destruct (has_logger_import _). }
  assert (E : rewrite file_path original_content
              = Acc original_content 0 [Processing file_path]).
  { unfold rewrite. rewrite Ha. by apply fold_rules_unchanged. }
  split; [done|]. split; [done|].
  intros Hf. unfold process_file. rewrite Hf, E. cbn [content printed].
  by destruct (decide _).
Qed.

Lemma nothing_to_rewrite_witness :
  rewrite "nodes/x.ts" (s2l "const x = 1; // console.log()")
  = Acc (s2l "const x = 1; // console.log()") 0 [Processing "nodes/x.ts"].
Proof.
  apply (nothing_to_rewrite "nodes/x.ts" (s2l "const x = 1; // console.log()")
           (one_file "nodes/x.ts" [])).
  - vm_compute. reflexivity.
  - unfold patterns.
    repeat (apply List.Forall_cons; [vm_compute; reflexivity|]).
    apply List.Forall_nil.
Defined.

(** C10: the patterns are not tied to the start of a name.  In the text
    [myconsole.log("x")], behind a logger-import marker or on its own, no
    import is added and the call is rewritten to [mylogger.log("x")], with
    one change counted. *)
Theorem rewrite_not_anchored (file_path : string) :
  content (rewrite file_path unanchored_text) = marker_here ++ newline :: unanchored_result
  /\ changes_made (rewrite file_path unanchored_text) = 1
  /\ imports_added (printed (rewrite file_path unanchored_text)) = 0
  /\ content (rewrite file_path unanchored_call) = unanchored_result
  /\ Str.contains (s2l " console") unanchored_text = false
  /\ Str.starts (s2l "console") unanchored_call = false.
Proof. vm_compute. by repeat split. Qed.

End Persist.

(** ** The run over the files *)

Section Main.

Lemma reported_counts_app (t1 t2 : list effect) :
  reported_counts (t1 ++ t2) = reported_counts t1 ++ reported_counts t2.
Proof.
  induction t1 as [|[[]|] t1 IH]; cbn; rewrite ?IH; done.
Qed.

Lemma not_found_app (t1 t2 : list effect) :
  not_found (t1 ++ t2) = not_found t1 ++ not_found t2.
Proof.
  induction t1 as [|[[]|] t1 IH]; cbn; rewrite ?IH; done.
Qed.

Lemma quiet_reported (ls : list line) :
  Forall quiet ls ->
  reported_counts (map Print ls) = [] /\ not_found (map Print ls) = [].
Proof.
  induction 1 as [|[] ls Hq _ [IH1 IH2]]; cbn; try done.
Qed.

Lemma apply_rule_quiet (a : acc) (rule : regex * template) :
  Forall quiet (printed a) -> Forall quiet (printed (apply_rule a rule)).
Proof.
  intros H. unfold apply_rule. destruct (decide _); cbn; [done|].
  apply Forall_app. split; [done|]. by repeat constructor.
Qed.

Lemma rewrite_quiet (file_path : string) (c : text) :
  Forall quiet (printed (rewrite file_path c)).
Proof.
  unfold rewrite.
  assert (H : Forall quiet (printed (add_logger_import file_path
                                       (Acc c 0 [Processing file_path])))).
  { unfold add_logger_import. cbn [content printed changes_made].
    destruct (has_logger_import _); [by repeat constructor|].
    destruct (last _); cbn; by repeat constructor. }
  revert H. generalize (add_logger_import file_path (Acc c 0 [Processing file_path])).
  induction patterns as [|r rules IH]; intros a H; cbn; [done|].
  by apply IH, apply_rule_quiet.
Qed.

(** What [process_file] does to a world in which the file is there. *)
Lemma process_file_there (file_path : string) (c : text) (w : world) :
  files w !! file_path = Some c ->
  exists w',
    process_file file_path w = (w', Returned (file_changes file_path c))
    /\ reported_counts (trace w')
       = reported_counts (trace w) ++ [file_changes file_path c]
    /\ not_found (trace w') = not_found (trace w)
    /\ is_Some (files w' !! file_path)
    /\ (forall q, q <> file_path -> files w' !! q = files w !! q).
Proof.
  intros Hf. unfold process_file, file_changes. rewrite Hf.
  destruct (quiet_reported _ (rewrite_quiet file_path c)) as [Hr Hn].
  revert Hr Hn. generalize (rewrite file_path c). intros a Hr Hn.
  destruct (decide (content a = c)) as [E|E]; eexists; (split; [reflexivity|]).
  - unfold print_all. cbn [files trace].
    rewrite map_app, !reported_counts_app, !not_found_app, Hr, Hn. cbn.
    rewrite !app_nil_r. by rewrite Hf.
  - unfold print_all, write_file. cbn [files trace].
    rewrite !reported_counts_app, !not_found_app, Hr, Hn. cbn.
    rewrite !app_nil_r. repeat split; try done.
    + rewrite lookup_insert_eq. by eexists.
    + intros q Hq. by rewrite lookup_insert_ne.
Qed.

Lemma main_loop_total (paths : list string) (total_changes : nat) (w : world) :
  exists w' counts,
    main_loop paths total_changes w = (w', Returned (total_changes + sum_list counts))
    /\ reported_counts (trace w') = reported_counts (trace w) ++ counts
    /\ length counts = length (filter (fun p => is_Some (files w !! p)) paths)
    /\ not_found (trace w')
       = not_found (trace w) ++ filter (fun p => files w !! p = None) paths
    /\ (forall p, files w' !! p = None <-> files w !! p = None)
    /\ (forall p, p ∉ paths -> files w' !! p = files w !! p)
    /\ (NoDup paths ->
        sum_list counts
        = sum_list_with
            (fun p => from_option (file_changes p) 0 (files w !! p)) paths).
Proof.
  revert total_changes w.
  induction paths as [|file_path paths IH]; intros total_changes w.
  - exists w, []. cbn. rewrite !app_nil_r, Nat.add_0_r. by split_and!.
  - cbn [main_loop]. destruct (files w !! file_path) as [c|] eqn:Hf.
    + destruct (process_file_there file_path c w Hf)
        as (w1 & -> & Hr1 & Hn1 & Hs1 & Hq1).
      destruct (IH (total_changes + file_changes file_path c) w1)
        as (w' & counts & -> & Hr & Hl & Hn & Hd & Hq & Hs).
      assert (Hd1 : forall p, files w1 !! p = None <-> files w !! p = None).
      { intros p. destruct (decide (p = file_path)) as [->|Hp].
        - rewrite Hf. destruct Hs1 as [x ->]. done.
        - by rewrite Hq1. }
      exists w', (file_changes file_path c :: counts). split_and!.
      * cbn. f_equal. f_equal. lia.
      * rewrite Hr, Hr1, <- app_assoc. done.
      * rewrite filter_cons_True by (by rewrite Hf). cbn. rewrite Hl.
        f_equal. f_equal. apply list_filter_iff. intros p.
        rewrite <- !not_eq_None_Some. by rewrite Hd1.
      * rewrite filter_cons_False by (by rewrite Hf). rewrite Hn, Hn1.
        f_equal. apply list_filter_iff. intros p. apply Hd1.
      * intros p. rewrite Hd. apply Hd1.
      * intros p Hp. apply not_elem_of_cons in Hp as [Hp1 Hp2].
        rewrite Hq by done. by apply Hq1.
      * intros [Hnp Hnd]%NoDup_cons. cbn. rewrite Hf. cbn. f_equal.
        rewrite Hs by done. clear -Hnp Hq1.
        induction paths as [|q paths IH]; cbn; [done|].
        apply not_elem_of_cons in Hnp as [Hne Hnp].
        rewrite Hq1 by done. f_equal. by apply IH.
    + destruct (IH total_changes (print_all [FileNotFound file_path] w))
        as (w' & counts & -> & Hr & Hl & Hn & Hd & Hq & Hs).
      unfold print_all in Hr, Hl, Hn, Hd, Hq, Hs. cbn [files trace] in *.
      rewrite reported_counts_app in Hr. rewrite not_found_app in Hn.
      cbn in Hr, Hn. rewrite app_nil_r in Hr.
      exists w', counts. split_and!; try done.
      * rewrite filter_cons_False; [done|]. rewrite Hf. by intros [? ?].
      * rewrite filter_cons_True by done. by rewrite Hn, <- app_assoc.
      * intros p Hp. apply not_elem_of_cons in Hp as [_ Hp]. by apply Hq.
      * intros [Hnp Hnd]%NoDup_cons. cbn. rewrite Hf. cbn. by apply Hs.
Qed.

(** C6: for any list of paths the run completes and prints a total.
    Every path with no file is reported as not found, in order, and the
    run goes on with the next path; every path with a file gets one
    reported count; the total is the sum of those counts; the run ends by
    printing the total.  When no path is listed twice, the count of a file
    is the one [process_file] gives for its content at the start. *)
Theorem missing_files_skipped (paths : list string) (w : world) :
  exists w' total counts,
    main_on paths w = (w', Returned tt)
    /\ not_found (trace w')
       = not_found (trace w) ++ filter (fun p => files w !! p = None) paths
    /\ reported_counts (trace w') = reported_counts (trace w) ++ counts
    /\ length counts = length (filter (fun p => is_Some (files w !! p)) paths)
    /\ total = sum_list counts
    /\ (NoDup paths ->
        total = sum_list_with
                  (fun p => from_option (file_changes p) 0 (files w !! p)) paths)
    /\ (exists tr, trace w' = tr ++ [Print (TotalChanges total); Print AllReplaced]).
Proof.
  destruct (main_loop_total paths 0 w)
    as (w1 & counts & Hm & Hr & Hl & Hn & _ & _ & Hs).
  unfold main_on. rewrite Hm. cbn [Nat.add].
  eexists _, _, counts. split; [reflexivity|].
  unfold print_all. cbn [trace files].
  rewrite not_found_app, reported_counts_app. cbn. rewrite !app_nil_r.
  split_and!; try done. by eexists.
Qed.

Lemma missing_files_skipped_witness :
  exists w' tr,
    main_on ["nodes/missing.ts"; "nodes/x.ts"]%string
      (one_file "nodes/x.ts" (s2l "console.log(x)")) = (w', Returned tt)
    /\ trace w' = tr ++ [Print (TotalChanges 1); Print AllReplaced]
    /\ not_found (trace w') = ["nodes/missing.ts"%string].
Proof.
  destruct (missing_files_skipped ["nodes/missing.ts"; "nodes/x.ts"]%string
              (one_file "nodes/x.ts" (s2l "console.log(x)")))
    as (w' & total & counts & Hm & Hn & _ & _ & _ & Hs & tr & Ht).
  exists w', tr. split; [exact Hm|]. split.
  - rewrite Ht, Hs; [vm_compute; reflexivity|]. compute_done.
  - rewrite Hn. vm_compute. reflexivity.
Defined.

End Main.

(** ** The variables/expressions rules *)

Section CatchAll.

Lemma run_chrs (l : text) (p : regex) (s : text) :
  run (map Chr l ++ p) (l ++ s) = pushes (map TChr l) (run p s).
Proof.
  induction l as [|a l IH]; cbn [map app run].
  - by destruct (run p s) as [[? ?]|].
  - rewrite Ascii.eqb_refl, IH. by destruct (run p s) as [[? ?]|].
Qed.

(** A greedy class takes every character up to the first one it does not
    accept, provided the rest of the pattern matches from there. *)
Lemma greedy_upto (k : cls) (cont : text -> result) (l : text) (c : ascii) (s : text) :
  Forall (fun a => accepts k a = true) l ->
  accepts k c = false ->
  is_Some (cont (c :: s)) ->
  greedy k cont (l ++ c :: s) = pushes (map TChr l) (cont (c :: s)).
Proof.
  intros Hl Hc [[ts rest] Hk]. induction Hl as [|a l Ha _ IH]; cbn [app greedy map].
  - rewrite Hc, Hk. done.
  - rewrite Ha, IH, Hk. done.
Qed.

Lemma chars_chrs (l : text) (ts : list tok) : chars (map TChr l ++ ts) = l ++ chars ts.
Proof. induction l as [|a l IH]; cbn; [done | by rewrite IH]. Qed.

Lemma groups_chrs (l : text) (ts : list tok) : groups (map TChr l ++ ts) = groups ts.
Proof. induction l as [|a l IH]; cbn; done. Qed.

Lemma until_close_chrs (l : text) (ts : list tok) :
  until_close (map TChr l ++ TClose :: ts) = l.
Proof. induction l as [|a l IH]; cbn; [done | by rewrite IH]. Qed.

Lemma expand_tlit (l : text) (t : template) (gs : list text) :
  expand (map TLit l ++ t) gs = l ++ expand t gs.
Proof. induction l as [|a l IH]; cbn; [done | by rewrite IH]. Qed.

Lemma chars_only_chrs (l : text) : chars (map TChr l) = l.
Proof. induction l as [|a l IH]; cbn; [done | by rewrite IH]. Qed.

Lemma groups_only_chrs (l : text) : groups (map TChr l) = [].
Proof. induction l as [|a l IH]; cbn; done. Qed.

Lemma expand_only_tlit (l : text) (gs : list text) : expand (map TLit l) gs = l.
Proof. induction l as [|a l IH]; cbn; [done | by rewrite IH]. Qed.

Lemma accepts_not_rparen (arg : text) :
  rparen ∉ arg -> Forall (fun a => accepts (NoneOf [rparen]) a = true) arg.
Proof.
  intros H. apply Forall_forall. intros a Ha. cbn. rewrite orb_false_r.
  apply negb_true_iff, Ascii.eqb_neq. by intros ->.
Qed.

Lemma catch_all_in_patterns :
  patterns !! 3 = Some (catch_all "log")
  /\ patterns !! 7 = Some (catch_all "error")
  /\ patterns !! 11 = Some (catch_all "warn").
Proof. by split_and!. Qed.

(** C5 (as amended): for each call family the variables/expressions rule,
    tried at a call [console.f(arg)] whose argument is not empty and holds
    no closing parenthesis, matches exactly up to that first closing
    parenthesis, whatever character stands before it (a backslash too),
    with the argument as its group; the replacement is [logger.f(arg)]. *)
Theorem catch_all_stops_at_first_close (family : string) (arg rest : text) :
  arg <> [] ->
  rparen ∉ arg ->
  (family ∈ ["log"; "error"; "warn"]%string -> catch_all family ∈ patterns)
  /\ exists ts,
      run (catch_all family).1 (console_call family arg ++ rest) = Some (ts, rest)
      /\ chars ts = console_call family arg
      /\ groups ts = [arg]
      /\ expand (catch_all family).2 (groups ts) = logger_call family arg.
Proof.
  intros Hne Hnp. split.
  { intros Hf. destruct catch_all_in_patterns as (H1 & H2 & H3).
    repeat (apply elem_of_cons in Hf as [->|Hf]);
      [eapply list_elem_of_lookup_2; exact H1
      |eapply list_elem_of_lookup_2; exact H2
      |eapply list_elem_of_lookup_2; exact H3
      |by apply elem_of_nil in Hf]. }
  destruct arg as [|a arg]; [done|].
  apply not_elem_of_cons in Hnp as [Ha Hnp].
  pose proof (accepts_not_rparen _ Hnp) as Hall.
  assert (Hacc : accepts (NoneOf [rparen]) a = true).
  { cbn. rewrite orb_false_r. apply negb_true_iff, Ascii.eqb_neq. by intros ->. }
  unfold catch_all, console_call, logger_call, lit, tlit. cbn [fst snd].
  set (pre := s2l ("console." +:+ family +:+ "(")).
  set (pre' := s2l ("logger." +:+ family +:+ "(")).
  rewrite <- !app_assoc, run_chrs.
  change (run ([Open; Plus (NoneOf [rparen]); Close] ++ map Chr (s2l ")"))
            ((a :: arg) ++ [rparen] ++ rest))
    with (push TOpen
            (if accepts (NoneOf [rparen]) a
             then push (TChr a)
                    (greedy (NoneOf [rparen]) (run [Close; Chr rparen])
                       (arg ++ rparen :: rest))
             else None)).
  rewrite Hacc, greedy_upto; [|done|done|by eexists].
  cbn [run]. rewrite Ascii.eqb_refl. cbn [push pushes].
  eexists. split; [reflexivity|].
  rewrite chars_chrs, groups_chrs. cbn [chars groups until_close].
  rewrite chars_chrs, until_close_chrs, groups_chrs. cbn [chars groups].
  split_and!; try done.
  rewrite expand_tlit. cbn [expand nth Nat.sub]. done.
Qed.

Lemma catch_all_stops_at_first_close_witness :
  exists ts,
    run (catch_all "log").1 escaped_call = Some (ts, s2l "b)")
    /\ groups ts = [s2l "a\"].
Proof.
  destruct (catch_all_stops_at_first_close "log" (s2l "a\") (s2l "b)"))
    as [_ (ts & H1 & _ & H2 & _)].
  - discriminate.
  - vm_compute. intros H. by repeat (apply elem_of_cons in H as [H|H]; [discriminate|]);
      apply elem_of_nil in H.
  - exists ts. split; [exact H1 | exact H2].
Defined.

(** C5, the claim as stated fails: in [console.log(a\)b)] the first
    closing parenthesis has a backslash before it, and the text up to the
    first one without is [a\)b]; the rule ends its match at the first
    closing parenthesis all the same, with [a\] as the argument. *)
Lemma escaped_close_ends_match :
  upto_unescaped_close (s2l "a\)b)") = Some (s2l "a\)b")
  /\ findall (catch_all "log").1 escaped_call = [s2l "a\"]
  /\ findall (catch_all "log").1 escaped_call <> [s2l "a\)b"]
  /\ content (rewrite "nodes/x.ts" escaped_call) = s2l "logger.log(a\)b)".
Proof. vm_compute. by split_and!. Qed.

End CatchAll.

(** ** What a match is made of *)

Section Matches.

Lemma push_Some (t : tok) (r : result) (ts : list tok) (rest : text) :
  push t r = Some (ts, rest) ->
  exists ts', ts = t :: ts' /\ r = Some (ts', rest).
Proof.
  destruct r as [[ts' rest']|]; cbn; [|done].
  intros [= <- <-]. by exists ts'.
Qed.

Lemma greedy_Some (k : cls) (cont : text -> result) (s : text)
    (ts : list tok) (rest : text) :
  greedy k cont s = Some (ts, rest) ->
  exists u v ts',
    s = u ++ v /\ ts = map TChr u ++ ts' /\ cont v = Some (ts', rest)
    /\ Forall (fun a => accepts k a = true) u.
Proof.
  revert ts. induction s as [|a s IH]; intros ts; cbn [greedy].
  - intros H. by exists [], [], ts.
  - destruct (accepts k a) eqn:Ha; [|intros H; by exists [], (a :: s), ts].
    destruct (push (TChr a) (greedy k cont s)) as [[ts1 rest1]|] eqn:Hp.
    + intros [= <- <-]. apply push_Some in Hp as (ts2 & -> & Hg).
      destruct (IH _ Hg) as (u & v & ts' & -> & -> & Hc & Hu).
      exists (a :: u), v, ts'. split_and!; try done. by constructor.
    + intros H. by exists [], (a :: s), ts.
Qed.

Lemma lazy_Some (k : cls) (cont : text -> result) (s : text)
    (ts : list tok) (rest : text) :
  lazy k cont s = Some (ts, rest) ->
  exists u v ts',
    s = u ++ v /\ ts = map TChr u ++ ts' /\ cont v = Some (ts', rest)
    /\ Forall (fun a => accepts k a = true) u.
Proof.
  revert ts. induction s as [|a s IH]; intros ts; cbn [lazy].
  - destruct (cont []) as [r|] eqn:Hc; [|done].
    intros [= ->]. by exists [], [], ts.
  - destruct (cont (a :: s)) as [r|] eqn:Hc.
    + intros [= ->]. by exists [], (a :: s), ts.
    + destruct (accepts k a) eqn:Ha; [|done].
      intros (ts2 & -> & Hg)%push_Some.
      destruct (IH _ Hg) as (u & v & ts' & -> & -> & Hc' & Hu).
      exists (a :: u), v, ts'. split_and!; try done. by constructor.
Qed.

Lemma run_chrs_Some (l : text) (p : regex) (s : text) (ts : list tok) (rest : text) :
  run (map Chr l ++ p) s = Some (ts, rest) ->
  exists s1 ts1, s = l ++ s1 /\ ts = map TChr l ++ ts1 /\ run p s1 = Some (ts1, rest).
Proof.
  revert s ts. induction l as [|c l IH]; intros s ts; cbn [map app run].
  - intros H. by exists s, ts.
  - destruct s as [|a s]; [done|].
    destruct (Ascii.eqb a c) eqn:E; [|done]. apply Ascii.eqb_eq in E as ->.
    intros (ts2 & -> & Hr)%push_Some.
    destruct (IH _ _ Hr) as (s1 & ts1 & -> & -> & Hp). by exists s1, ts1.
Qed.

(** A match consumes the text it reports. *)
Lemma run_consumes (p : regex) (s : text) (ts : list tok) (rest : text) :
  run p s = Some (ts, rest) -> s = chars ts ++ rest.
Proof.
  revert s ts. induction p as [|x p IH]; intros s ts; cbn [run].
  - by intros [= <- <-].
  - destruct x as [c|k|k|k|k| |].
    + destruct s as [|a s]; [done|]. destruct (Ascii.eqb a c); [|done].
      intros (ts' & -> & Hr)%push_Some. cbn. by rewrite (IH _ _ Hr).
    + destruct s as [|a s]; [done|]. destruct (accepts k a); [|done].
      intros (ts' & -> & Hr)%push_Some. cbn. by rewrite (IH _ _ Hr).
    + intros (u & v & ts' & -> & -> & Hr & _)%greedy_Some.
      rewrite chars_chrs, (IH _ _ Hr). by rewrite app_assoc.
    + destruct s as [|a s]; [done|]. destruct (accepts k a); [|done].
      intros (ts1 & -> & (u & v & ts' & -> & -> & Hr & _)%greedy_Some)%push_Some.
      cbn. rewrite chars_chrs, (IH _ _ Hr). by rewrite app_assoc.
    + intros (u & v & ts' & -> & -> & Hr & _)%lazy_Some.
      rewrite chars_chrs, (IH _ _ Hr). by rewrite app_assoc.
    + intros (ts' & -> & Hr)%push_Some. cbn. by apply IH.
    + intros (ts' & -> & Hr)%push_Some. cbn. by apply IH.
Qed.

(** Every match a scan reports was found at some place of the text. *)
Lemma matches_from_found (p : regex) (s : text) (skip : nat) (ts : list tok) :
  ts ∈ matches_from p s skip ->
  exists before at_ rest, s = before ++ at_ /\ run p at_ = Some (ts, rest).
Proof.
  revert skip. induction s as [|c s IH]; intros skip; cbn [matches_from].
  - destruct (run p []) as [[ts' rest]|] eqn:Hr; [|by intros ?%elem_of_nil].
    intros ->%list_elem_of_singleton. by exists [], [], rest.
  - assert (Htail : forall k, ts ∈ matches_from p s k ->
              exists before at_ rest, c :: s = before ++ at_ /\ run p at_ = Some (ts, rest)).
    { intros k (before & at_ & rest & -> & Hr)%IH. by exists (c :: before), at_, rest. }
    destruct skip as [|k]; [|apply Htail].
    destruct (run p (c :: s)) as [[ts' rest]|] eqn:Hr; [|apply Htail].
    intros [->|H]%elem_of_cons; [by exists [], (c :: s), rest | by eapply Htail].
Qed.

(** The tokens of a match of a pattern with one group between two
    literals. *)
Lemma one_group_Some (pre suf : text) (x : item) (k : cls)
    (s : text) (ts : list tok) (rest : text) :
  x = Star k \/ x = Plus k ->
  run (map Chr pre ++ [Open; x; Close] ++ map Chr suf) s = Some (ts, rest) ->
  exists u, ts = map TChr pre ++ TOpen :: map TChr u ++ TClose :: map TChr suf.
Proof.
  intros Hx (s1 & ts1 & -> & -> & H)%run_chrs_Some.
  assert (Hend : forall v ts' , run (Close :: map Chr suf) v = Some (ts', rest) ->
                   ts' = TClose :: map TChr suf).
  { intros v ts'. cbn [run]. intros (ts2 & -> & Hr)%push_Some.
    rewrite <- (app_nil_r (map Chr suf)) in Hr.
    apply run_chrs_Some in Hr as (s2 & ts3 & -> & -> & [= <- <-]).
    by rewrite app_nil_r. }
  destruct Hx as [->| ->]; cbn [app run] in H.
  - apply push_Some in H as (ts2 & -> & (u & v & ts' & -> & -> & Hr & _)%greedy_Some).
    exists u. by rewrite (Hend _ _ Hr).
  - apply push_Some in H as (ts2 & -> & H).
    destruct s1 as [|a s1]; [done|]. destruct (accepts k a); [|done].
    apply push_Some in H as (ts3 & -> & (u & v & ts' & -> & -> & Hr & _)%greedy_Some).
    exists (a :: u). by rewrite (Hend _ _ Hr).
Qed.

Lemma two_group_Some (pre mid suf : text) (k1 k2 : cls)
    (s : text) (ts : list tok) (rest : text) :
  run (map Chr pre ++ [Open; Star k1; Close] ++ map Chr mid
         ++ [Open; Star k2; Close] ++ map Chr suf) s = Some (ts, rest) ->
  exists u1 u2,
    ts = map TChr pre ++ TOpen :: map TChr u1 ++ TClose :: map TChr mid
           ++ TOpen :: map TChr u2 ++ TClose :: map TChr suf.
Proof.
  intros (s1 & ts1 & -> & -> & H)%run_chrs_Some. cbn [app run] in H.
  apply push_Some in H as (ts2 & -> & (u1 & v & ts' & -> & -> & Hr & _)%greedy_Some).
  apply push_Some in Hr as (ts3 & -> & Hr).
  apply (one_group_Some mid suf (Star k2) k2) in Hr as [u2 ->]; [|by left].
  by exists u1, u2.
Qed.

(** The rules with one group: the match starts with [console], and the
    replacement is the match with [logger] in its place. *)
Lemma one_group_relabels (pre0 suf : text) (x : item) (k : cls)
    (s : text) (ts : list tok) (rest : text) :
  x = Star k \/ x = Plus k ->
  run (map Chr (s2l "console" ++ pre0) ++ [Open; x; Close] ++ map Chr suf) s
  = Some (ts, rest) ->
  exists y,
    chars ts = s2l "console" ++ y
    /\ expand (map TLit (s2l "logger" ++ pre0) ++ [TRef 1] ++ map TLit suf) (groups ts)
       = s2l "logger" ++ y.
Proof.
  intros Hx [u ->]%(one_group_Some _ _ _ k); [|done].
  exists (pre0 ++ u ++ suf).
  rewrite chars_chrs, groups_chrs. cbn [chars groups].
  rewrite chars_chrs, until_close_chrs, groups_chrs. cbn [chars groups].
  rewrite chars_only_chrs, groups_only_chrs, expand_tlit.
  cbn [expand app nth Nat.sub]. rewrite expand_only_tlit.
  by rewrite <- !app_assoc.
Qed.

Lemma two_group_relabels (pre0 mid suf : text) (k1 k2 : cls)
    (s : text) (ts : list tok) (rest : text) :
  run (map Chr (s2l "console" ++ pre0) ++ [Open; Star k1; Close] ++ map Chr mid
         ++ [Open; Star k2; Close] ++ map Chr suf) s = Some (ts, rest) ->
  exists y,
    chars ts = s2l "console" ++ y
    /\ expand (map TLit (s2l "logger" ++ pre0) ++ [TRef 1] ++ map TLit mid
                 ++ [TRef 2] ++ map TLit suf) (groups ts)
       = s2l "logger" ++ y.
Proof.
  intros (u1 & u2 & ->)%two_group_Some.
  exists (pre0 ++ u1 ++ mid ++ u2 ++ suf).
  rewrite chars_chrs, groups_chrs. cbn [chars groups].
  rewrite chars_chrs, until_close_chrs, groups_chrs. cbn [chars groups].
  rewrite chars_chrs, groups_chrs. cbn [chars groups].
  rewrite chars_chrs, until_close_chrs, groups_chrs. cbn [chars groups].
  rewrite chars_only_chrs, groups_only_chrs, expand_tlit.
  cbn [expand app nth Nat.sub]. rewrite expand_tlit.
  cbn [expand app nth Nat.sub]. rewrite expand_only_tlit.
  by rewrite <- !app_assoc.
Qed.

Lemma patterns_relabel : Forall relabels patterns.
Proof.
  unfold patterns, relabels.
  repeat apply List.Forall_cons; [..|apply List.Forall_nil];
    intros s ts rest H; cbn [fst snd] in *.
  - by apply (one_group_relabels (s2l ".log(`") (s2l "`)") (Star (NoneOf [backtick]))
             (NoneOf [backtick]) s ts rest); [left|].
  - by apply (one_group_relabels (s2l ".log(" ++ [dquote]) (dquote :: s2l ")")
             (Star (NoneOf [dquote])) (NoneOf [dquote]) s ts rest); [left|].
  - by apply (one_group_relabels (s2l ".log('") (s2l "')") (Star (NoneOf [squote]))
             (NoneOf [squote]) s ts rest); [left|].
  - by apply (one_group_relabels (s2l ".log(") (s2l ")") (Plus (NoneOf [rparen]))
             (NoneOf [rparen]) s ts rest); [right|].
  - by apply (two_group_relabels (s2l ".error(`") (s2l "`") (s2l ")")
             (NoneOf [backtick]) (NoneOf [rparen]) s ts rest).
  - by apply (one_group_relabels (s2l ".error(" ++ [dquote]) (dquote :: s2l ")")
             (Star (NoneOf [dquote])) (NoneOf [dquote]) s ts rest); [left|].
  - by apply (one_group_relabels (s2l ".error('") (s2l "')") (Star (NoneOf [squote]))
             (NoneOf [squote]) s ts rest); [left|].
  - by apply (one_group_relabels (s2l ".error(") (s2l ")") (Plus (NoneOf [rparen]))
             (NoneOf [rparen]) s ts rest); [right|].
  - by apply (two_group_relabels (s2l ".warn(`") (s2l "`") (s2l ")")
             (NoneOf [backtick]) (NoneOf [rparen]) s ts rest).
  - by apply (one_group_relabels (s2l ".warn(" ++ [dquote]) (dquote :: s2l ")")
             (Star (NoneOf [dquote])) (NoneOf [dquote]) s ts rest); [left|].
  - by apply (one_group_relabels (s2l ".warn('") (s2l "')") (Star (NoneOf [squote]))
             (NoneOf [squote]) s ts rest); [left|].
  - by apply (one_group_relabels (s2l ".warn(") (s2l ")") (Plus (NoneOf [rparen]))
             (NoneOf [rparen]) s ts rest); [right|].
Qed.

Lemma relabel_refl (s : text) : relabel s s.
Proof. induction s; by constructor. Qed.

Lemma relabel_app (x s t : text) : relabel s t -> relabel (x ++ s) (x ++ t).
Proof. intros H. induction x; cbn; [done | by constructor]. Qed.

(** A substitution by a rule turns [console] into [logger] at the matches
    and leaves the rest of the text alone. *)
Lemma sub_from_relabel (rule : regex * template) (s : text) (skip : nat) :
  relabels rule ->
  relabel (drop skip s) (sub_from rule.1 rule.2 s skip).
Proof.
  intros Hrule. revert skip. induction s as [|c s IH]; intros skip; cbn [sub_from].
  - rewrite drop_nil. destruct (run rule.1 []) as [[ts rest]|] eqn:Hr; [|constructor].
    destruct (Hrule _ _ _ Hr) as (y & Hy & _).
    apply run_consumes in Hr. rewrite Hy in Hr. discriminate.
  - destruct skip as [|k]; [|apply IH]. rewrite drop_0.
    destruct (run rule.1 (c :: s)) as [[ts rest]|] eqn:Hr;
      [|constructor; apply (IH 0)].
    destruct (Hrule _ _ _ Hr) as (y & Hy & ->).
    apply run_consumes in Hr. rewrite Hy in *.
    cbn [s2l list_ascii_of_string app] in Hr. injection Hr as -> ->.
    cbn [s2l list_ascii_of_string app length Nat.sub].
    specialize (IH (S (S (S (S (S (S (length y)))))))).
    cbn [drop] in IH. rewrite drop_app_length in IH.
    apply (relabel_swap (y ++ rest)), relabel_app, IH.
Qed.

Lemma sub_relabel (rule : regex * template) (s : text) :
  relabels rule -> relabel s (sub rule.1 rule.2 s).
Proof. intros H. apply (sub_from_relabel rule s 0 H). Qed.

End Matches.

(** ** What a change of [console] into [logger] keeps *)

Section Relabel.

Lemma starts_relabel (m s t : text) :
  mem "c" m = false -> relabel s t -> Str.starts m s = true -> Str.starts m t = true.
Proof.
  intros Hm Hr. revert m Hm. induction Hr as [|c s t Hr IH|s t Hr IH]; intros m Hm.
  - done.
  - destruct m as [|a m]; [done|]. cbn in *.
    apply orb_false_iff in Hm as [_ Hm].
    rewrite !andb_true_iff. intros [? ?]. split; [done|]. by apply IH.
  - destruct m as [|a m]; [done|]. cbn in *.
    apply orb_false_iff in Hm as [Ha _].
    rewrite andb_true_iff. intros [Hc _]. apply Ascii.eqb_eq in Hc as ->. done.
Qed.

Lemma contains_cons (m : text) (c : ascii) (s : text) :
  Str.contains m s = true -> Str.contains m (c :: s) = true.
Proof. intros H. cbn. rewrite H. apply orb_true_r. Qed.

(** A marker that starts with [f] and holds no [c] stays in the text. *)
Lemma contains_relabel (m s t : text) :
  mem "c" m = false ->
  relabel s t ->
  Str.contains ("f" :: m) s = true -> Str.contains ("f" :: m) t = true.
Proof.
  intros Hm Hr. induction Hr as [|c s t Hr IH|s t Hr IH].
  - done.
  - cbn [Str.contains]. rewrite !orb_true_iff. intros [H|H].
    + left. revert H. apply starts_relabel; [done | by constructor].
    + right. by apply IH.
  - intros H. cbn in H. apply IH in H.
    cbn [s2l list_ascii_of_string app]. by do 6 apply contains_cons.
Qed.

Lemma has_logger_import_relabel (s t : text) :
  relabel s t -> has_logger_import s = true -> has_logger_import t = true.
Proof.
  intros Hr. unfold has_logger_import. rewrite !orb_true_iff.
  intros [H|H]; [left|right]; revert H; by apply contains_relabel.
Qed.

Lemma may_start_false (q : regex) (c : ascii) (v : text) :
  may_start q c = false -> run q (c :: v) = None.
Proof.
  induction q as [|x q IH]; [done|].
  destruct x as [d|k|k|k|k| |]; cbn [may_start run].
  - by intros ->.
  - by intros ->.
  - intros [Hk Hq]%orb_false_iff. cbn [greedy]. rewrite Hk. by apply IH.
  - by intros ->.
  - intros [Hk Hq]%orb_false_iff. cbn [lazy]. rewrite (IH Hq), Hk. done.
  - intros Hq. by rewrite (IH Hq).
  - intros Hq. by rewrite (IH Hq).
Qed.

Lemma push_is_Some (t : tok) (r : result) : is_Some (push t r) <-> is_Some r.
Proof.
  destruct r as [[ts rest]|]; cbn; [|done]. split; intros _; by eexists.
Qed.

Lemma lazy_step (k : cls) (cont : text -> result) (a : ascii) (s : text) :
  accepts k a = true -> is_Some (lazy k cont s) -> is_Some (lazy k cont (a :: s)).
Proof.
  intros Ha Hs. cbn [lazy]. destruct (cont (a :: s)); [by eexists|].
  rewrite Ha. by apply push_is_Some.
Qed.

Lemma lazy_skip (k : cls) (cont : text -> result) (a : ascii) (s : text) :
  cont (a :: s) = None -> is_Some (lazy k cont (a :: s)) -> is_Some (lazy k cont s).
Proof.
  intros Hc. cbn [lazy]. rewrite Hc. destruct (accepts k a); [|by intros [? ?]].
  by intros ?%push_is_Some.
Qed.

(** A steady pattern that matches after the change matched before it. *)
Lemma steady_run (q : regex) (s t : text) :
  steady q = true -> relabel s t -> is_Some (run q t) -> is_Some (run q s).
Proof.
  revert s t. induction q as [|x q IH]; intros s t Hq Hr; [by eexists|].
  destruct x as [c|k|k|k|k| |]; cbn [steady] in Hq; try done.
  - apply andb_true_iff in Hq as [Hc Hq]. apply negb_true_iff in Hc.
    cbn [run]. destruct Hr as [|a s t Hr|s t Hr].
    + done.
    + destruct (Ascii.eqb a c); [|done]. rewrite !push_is_Some. by apply IH.
    + cbn [s2l list_ascii_of_string app]. rewrite Hc. by intros [? ?].
  - apply andb_true_iff in Hq as [Hc Hq]. apply negb_true_iff in Hc.
    cbn [run]. destruct Hr as [|a s t Hr|s t Hr].
    + done.
    + destruct (accepts k a); [|done]. rewrite !push_is_Some. by apply IH.
    + cbn [s2l list_ascii_of_string app]. rewrite Hc. by intros [? ?].
  - apply andb_true_iff in Hq as [[Hk Hm]%andb_true_iff Hq].
    cbn [run]. induction Hr as [|a s t Hr IHr|s t Hr IHr].
    + cbn [lazy]. done.
    + cbn [lazy]. destruct (run q (a :: t)) as [r|] eqn:Ht.
      * intros _. assert (Hs : is_Some (run q (a :: s))).
        { apply (IH _ (a :: t)); [done | by constructor | by rewrite Ht]. }
        destruct Hs as [r' ->]. by eexists.
      * destruct (accepts k a) eqn:Ha; [|by intros [? ?]].
        rewrite push_is_Some. intros H%IHr.
        destruct (run q (a :: s)); [by eexists|]. by apply push_is_Some.
    + cbn [s2l list_ascii_of_string app forallb] in *.
      repeat (apply andb_true_iff in Hm as [?%negb_true_iff Hm]).
      repeat (apply andb_true_iff in Hk as [? Hk]).
      intros Hlz.
      do 6 (apply lazy_skip in Hlz; [|by apply may_start_false]).
      apply IHr in Hlz. by do 7 (apply lazy_step; [done|]).
  - cbn [run]. rewrite !push_is_Some. by apply IH.
  - cbn [run]. rewrite !push_is_Some. by apply IH.
Qed.

Lemma import_pattern_steady : steady import_pattern = true.
Proof. reflexivity. Qed.

Lemma matches_from_skip_char (p : regex) (c : ascii) (s : text) :
  may_start p c = false -> matches_from p (c :: s) 0 = matches_from p s 0.
Proof. intros H. cbn [matches_from]. by rewrite may_start_false. Qed.

(** A steady pattern that starts with neither [c] nor a letter of
    [logger] finds nothing after the change if it found nothing before. *)
Lemma no_match_relabel (p : regex) (s t : text) :
  steady p = true ->
  forallb (fun c => negb (may_start p c)) (s2l "clogger") = true ->
  relabel s t ->
  matches_from p s 0 = [] -> matches_from p t 0 = [].
Proof.
  intros Hp Hc Hr. cbn [s2l list_ascii_of_string forallb] in Hc.
  repeat (apply andb_true_iff in Hc as [?%negb_true_iff Hc]).
  induction Hr as [|c s t Hr IH|s t Hr IH].
  - done.
  - cbn [matches_from].
    destruct (run p (c :: s)) as [[ts rest]|] eqn:Hs; [done|].
    intros Hn%IH. destruct (run p (c :: t)) as [r|] eqn:Ht; [|done].
    destruct (steady_run p (c :: s) (c :: t) Hp) as [r' Hr'];
      [by constructor | by rewrite Ht | congruence].
  - cbn [s2l list_ascii_of_string app].
    intros Hn. rewrite !matches_from_skip_char by done.
    repeat (first [ rewrite matches_from_skip_char in Hn by done
                  | revert Hn; cbn [matches_from];
                    destruct (run p (_ :: _)) as [[? ?]|]; [done|]; intros Hn ]).
    by apply IH.
Qed.

Lemma no_import_relabel (s t : text) :
  relabel s t ->
  findall import_pattern s = [] -> findall import_pattern t = [].
Proof.
  rewrite !findall_nil. by apply no_match_relabel.
Qed.

End Relabel.

(** ** The second run *)

Section SecondRun.

Lemma replace_from_puts (old new s : text) :
  old <> [] ->
  Str.contains old s = true ->
  exists a b, Str.replace_from old new s 0 = a ++ new ++ b.
Proof.
  intros Ho. induction s as [|c s IH]; cbn [Str.contains Str.replace_from].
  - destruct old; [done|]. done.
  - destruct (Str.starts old (c :: s)) eqn:Hs.
    + intros _. by exists [], (Str.replace_from old new s (length old - 1)).
    + cbn [orb]. intros (a & b & ->)%IH. by exists (c :: a), b.
Qed.

Lemma replace_puts (old new s : text) :
  old <> [] ->
  Str.contains old s = true ->
  exists a b, Str.replace old new s = a ++ new ++ b.
Proof.
  intros Ho Hc. unfold Str.replace. destruct old as [|o old'] eqn:E; [done|].
  rewrite <- E in *. by apply replace_from_puts.
Qed.

Lemma until_close_chrs_app (l : text) (ts : list tok) :
  until_close (map TChr l ++ ts) = l ++ until_close ts.
Proof. induction l as [|a l IH]; cbn; [done | by rewrite IH]. Qed.

Lemma until_close_prefix (ts : list tok) : exists r, chars ts = until_close ts ++ r.
Proof.
  induction ts as [|[a| |] ts [r IH]]; cbn.
  - by exists [].
  - exists r. by rewrite IH.
  - by exists r.
  - by exists (chars ts).
Qed.

(** What [findall] reports for the import pattern is not empty and stands
    in the text. *)
Lemma import_found_occurs (s x : text) :
  x ∈ findall import_pattern s -> x <> [] /\ Str.contains x s = true.
Proof.
  unfold findall. intros (ts & -> & Hts)%list_elem_of_fmap.
  apply matches_from_found in Hts as (before & at_ & rest & -> & Hr).
  pose proof (run_consumes _ _ _ _ Hr) as Hat.
  unfold import_pattern in Hr. cbn [app run] in Hr.
  apply push_Some in Hr as (ts1 & -> & Hr). unfold lit in Hr.
  apply run_chrs_Some in Hr as (s1 & ts2 & _ & -> & _).
  unfold found. cbn [groups]. rewrite until_close_chrs_app. split; [done|].
  cbn [chars] in Hat.
  destruct (until_close_prefix (map TChr (s2l "import") ++ ts2)) as [r Hp].
  rewrite until_close_chrs_app in Hp. rewrite Hat, Hp.
  apply contains_iff. exists before, (r ++ rest). by rewrite <- !app_assoc.
Qed.

Lemma import_line_marked (file_path : string) :
  exists a, import_line file_path = a ++ marker_here
            \/ import_line file_path = a ++ marker_up.
Proof.
  exists (s2l "import { functionRegistryLogger as logger } ").
  unfold import_line. destruct (_ && _); [by left | by right].
Qed.

(** After the import step the text holds a marker, or the step did nothing
    because the text holds no import. *)
Lemma add_logger_import_settled (file_path : string) (a : acc) :
  has_logger_import (content (add_logger_import file_path a)) = true
  \/ (add_logger_import file_path a = a
      /\ findall import_pattern (content a) = []).
Proof.
  unfold add_logger_import.
  destruct (has_logger_import (content a)) eqn:Hm; [by left|].
  destruct (last _) as [x|] eqn:Hl; [left | right; by apply last_None in Hl].
  apply last_Some in Hl as [l' Hl].
  destruct (import_found_occurs (content a) x) as [Hx Hc].
  { rewrite Hl. apply elem_of_app. right. by apply list_elem_of_singleton. }
  cbn [content].
  destruct (replace_puts x (x ++ newline :: import_line file_path) (content a) Hx Hc)
    as (u & v & ->).
  unfold has_logger_import. apply orb_true_iff.
  destruct (import_line_marked file_path) as [w [-> | ->]]; [left | right];
    apply contains_iff; exists (u ++ x ++ newline :: w), v;
    rewrite <- !app_assoc; cbn [app]; by rewrite <- !app_assoc.
Qed.

(** A property a change of [console] into [logger] keeps is kept by the
    loop over the rules. *)
Lemma fold_rules_keep (P : text -> Prop) (a : acc) :
  (forall s t, relabel s t -> P s -> P t) ->
  P (content a) -> P (content (fold_left apply_rule patterns a)).
Proof.
  intros HP. pose proof patterns_relabel as Hrs. revert a.
  induction Hrs as [|r rules Hr _ IH]; intros a Ha; cbn [fold_left]; [done|].
  apply IH. rewrite apply_rule_content. revert Ha. apply HP. by apply sub_relabel.
Qed.

Lemma rewrite_eq (file_path : string) (original_content : text) :
  rewrite file_path original_content
  = fold_left apply_rule patterns
      (add_logger_import file_path (Acc original_content 0 [Processing file_path])).
Proof. reflexivity. Qed.

(** The text a rewrite leaves holds a marker or no import. *)
Lemma rewrite_settled (file_path : string) (original_content : text) :
  has_logger_import (content (rewrite file_path original_content)) = true
  \/ findall import_pattern (content (rewrite file_path original_content)) = [].
Proof.
  rewrite rewrite_eq.
  generalize (add_logger_import_settled file_path
                (Acc original_content 0 [Processing file_path])).
  generalize (add_logger_import file_path
                (Acc original_content 0 [Processing file_path])).
  intros a [H|[-> H]].
  - left. apply (fold_rules_keep (fun c => has_logger_import c = true)); [|exact H].
    intros s t Hr. by apply has_logger_import_relabel.
  - right.
    apply (fold_rules_keep (fun c => findall import_pattern c = [])); [|exact H].
    intros s t Hr. by apply no_import_relabel.
Qed.

(** On a text that holds a marker or no import, the import step does
    nothing. *)
Lemma import_step_done (file_path : string) (a : acc) :
  has_logger_import (content a) = true \/ findall import_pattern (content a) = [] ->
  add_logger_import file_path a = a.
Proof.
  unfold add_logger_import. intros [-> | ->]; [done|].
  by destruct (has_logger_import (content a)).
Qed.

(** A second run on the text a first run leaves adds no import; and when
    no rule pattern matches in that text any more, the second run returns
    it unchanged, with count 0 and nothing written. *)
Theorem second_rewrite (file_path : string) (original_content : text) :
  imports_added
    (printed (rewrite file_path (content (rewrite file_path original_content)))) = 0
  /\ (Forall (fun rule =>
                findall rule.1 (content (rewrite file_path original_content)) = [])
        patterns ->
      rewrite file_path (content (rewrite file_path original_content))
      = Acc (content (rewrite file_path original_content)) 0 [Processing file_path]
      /\ file_changes file_path (content (rewrite file_path original_content)) = 0).
Proof.
  generalize (rewrite_settled file_path original_content).
  generalize (content (rewrite file_path original_content)). intros out Hs.
  assert (E : rewrite file_path out
              = fold_left apply_rule patterns (Acc out 0 [Processing file_path])).
  { rewrite rewrite_eq. by rewrite import_step_done. }
  split.
  - rewrite E. by rewrite fold_rules_imports_added.
  - intros Hn. unfold file_changes. rewrite E.
    rewrite fold_rules_unchanged by exact Hn. cbn [content].
    split; [done|]. by destruct (decide (out = out)).
Qed.

Lemma second_rewrite_witness :
  content (rewrite "nodes/Function/x.ts" plain_text)
  = s2l "import a from 'a'" ++ newline :: import_up ++ newline :: s2l "logger.log(x)"
  /\ file_changes "nodes/Function/x.ts"
       (content (rewrite "nodes/Function/x.ts" plain_text)) = 0.
Proof.
  split; [vm_compute; reflexivity|].
  apply (second_rewrite "nodes/Function/x.ts" plain_text).
  unfold patterns.
  repeat (apply List.Forall_cons; [vm_compute; reflexivity|]).
  apply List.Forall_nil.
Defined.

(** C2, evaluated where it fails: in [console.log(console.log(x))] the
    first run rewrites the outer call only and leaves a [console.log] call
    in the text; the second run rewrites that one and counts one change. *)
Lemma rewrite_not_idempotent :
  content (rewrite "nodes/x.ts" nested_call) = s2l "logger.log(console.log(x))"
  /\ content (rewrite "nodes/x.ts" (content (rewrite "nodes/x.ts" nested_call)))
     = s2l "logger.log(logger.log(x))"
  /\ content (rewrite "nodes/x.ts" (content (rewrite "nodes/x.ts" nested_call)))
     <> content (rewrite "nodes/x.ts" nested_call)
  /\ file_changes "nodes/x.ts" (content (rewrite "nodes/x.ts" nested_call)) = 1.
Proof. vm_compute. by split_and!. Qed.

(** C1, evaluated where it fails: the last import stands twice in the
    text, once in a comment; the import line is put after both, and one
    change is counted. *)
Lemma import_added_after_every_copy :
  has_logger_import duplicated_import_text = false
  /\ findall import_pattern duplicated_import_text = [import_bar; import_bar]
  /\ content (rewrite "nodes/Function/Function.node.ts" duplicated_import_text)
     = s2l "// " ++ import_bar ++ newline :: import_up
         ++ newline :: import_bar ++ newline :: import_up ++ [newline]
  /\ occurrences import_up
       (content (rewrite "nodes/Function/Function.node.ts" duplicated_import_text)) = 2
  /\ changes_made (rewrite "nodes/Function/Function.node.ts" duplicated_import_text) = 1.
Proof. vm_compute. by split_and!. Qed.

End SecondRun.

(** ** The import line, when the last import stands once *)

Section InsertOnce.

Lemma occurrences_cons (old : text) (c : ascii) (s : text) :
  occurrences old s <= occurrences old (c :: s).
Proof. cbn [occurrences]. lia. Qed.

Lemma occurrences_app (old x s : text) :
  occurrences old s <= occurrences old (x ++ s).
Proof.
  induction x as [|c x IH]; [done|]. cbn [app].
  etrans; [exact IH | apply occurrences_cons].
Qed.

Lemma occurrences_here (old b : text) : 1 <= occurrences old (old ++ b).
Proof.
  pose proof (starts_app old b) as H.
  destruct (old ++ b); cbn [occurrences]; rewrite H; lia.
Qed.

Lemma replace_from_none (old new s : text) :
  occurrences old s = 0 -> Str.replace_from old new s 0 = s.
Proof.
  induction s as [|c s IH]; [done|]. cbn [occurrences Str.replace_from].
  destruct (Str.starts old (c :: s)); [lia|]. intros H. by rewrite IH by lia.
Qed.

Lemma replace_from_skip (old new x s : text) :
  Str.replace_from old new (x ++ s) (length x) = Str.replace_from old new s 0.
Proof. induction x as [|c x IH]; [done|]. cbn. exact IH. Qed.

(** [str.replace] on a text in which [old] stands once. *)
Lemma replace_from_once (old new a b : text) :
  old <> [] ->
  occurrences old (a ++ old ++ b) = 1 ->
  Str.replace_from old new (a ++ old ++ b) 0 = a ++ new ++ b.
Proof.
  intros Ho. induction a as [|c a IH]; cbn [app].
  - destruct old as [|o old]; [done|]. cbn [app occurrences Str.replace_from].
    change (o :: old ++ b) with ((o :: old) ++ b). rewrite starts_app.
    cbn [length Nat.sub]. rewrite Nat.sub_0_r, replace_from_skip.
    intros H. rewrite replace_from_none; [done|].
    pose proof (occurrences_app (o :: old) old b). lia.
  - cbn [occurrences Str.replace_from].
    pose proof (occurrences_app old a (old ++ b)).
    pose proof (occurrences_here old b).
    destruct (Str.starts old (c :: a ++ old ++ b)); [lia|].
    intros H'. by rewrite IH by lia.
Qed.

(** X5: the import step on a text with no marker in which the text of
    the last import stands once: one line is put right after it, nothing
    else changes, and one change is counted. *)
Lemma import_added_once (file_path : string) (a b last_import : text)
    (n : nat) (ls : list line) :
  has_logger_import (a ++ last_import ++ b) = false ->
  last (findall import_pattern (a ++ last_import ++ b)) = Some last_import ->
  occurrences last_import (a ++ last_import ++ b) = 1 ->
  add_logger_import file_path (Acc (a ++ last_import ++ b) n ls)
  = Acc (a ++ (last_import ++ newline :: import_line file_path) ++ b) (n + 1)
        (ls ++ [AddedImport (import_line file_path)]).
Proof.
  intros Hm Hl Ho. unfold add_logger_import. cbn [content changes_made printed].
  rewrite Hm, Hl. f_equal.
  assert (Hx : last_import <> []).
  { apply last_Some in Hl as [l' Hl].
    apply (import_found_occurs (a ++ last_import ++ b)).
    rewrite Hl. apply elem_of_app. right. by apply list_elem_of_singleton. }
  unfold Str.replace. destruct last_import as [|c x] eqn:E; [done|].
  rewrite <- E in *. by apply replace_from_once.
Qed.

Lemma import_added_once_witness :
  content (add_logger_import "nodes/x.ts" (Acc plain_text 0 []))
  = s2l "import a from 'a'" ++ newline :: import_here ++ newline :: s2l "console.log(x)".
Proof.
  pose proof (import_added_once "nodes/x.ts" [] (newline :: s2l "console.log(x)")
                (s2l "import a from 'a'") 0 []) as H.
  cbn [app] in H. unfold plain_text. rewrite H; [vm_compute; reflexivity|..];
    vm_compute; reflexivity.
Defined.

End InsertOnce.

(** ** The count of a rule of the script *)

Section RuleCount.

(** A rule that turns [console] into [logger] leaves the text as it is
    only when it finds nothing. *)
Lemma sub_from_same (rule : regex * template) (s : text) :
  relabels rule ->
  sub_from rule.1 rule.2 s 0 = s -> matches_from rule.1 s 0 = [].
Proof.
  intros Hrule. induction s as [|c s IH]; cbn [sub_from matches_from].
  - destruct (run rule.1 []) as [[ts rest]|] eqn:Hr; [|done].
    destruct (Hrule _ _ _ Hr) as (y & Hy & _).
    apply run_consumes in Hr. rewrite Hy in Hr. discriminate.
  - destruct (run rule.1 (c :: s)) as [[ts rest]|] eqn:Hr.
    + destruct (Hrule _ _ _ Hr) as (y & Hy & ->).
      apply run_consumes in Hr. rewrite Hy in Hr.
      cbn [s2l list_ascii_of_string app] in *. injection Hr as -> _. discriminate.
    + intros [= H]. by apply IH.
Qed.

(** X6: for the rules of the script the count always grows by the number
    of matches in the text before the substitution: a rule that finds a
    match changes the text, so no match goes uncounted. *)
Lemma apply_rule_counts_matches (a : acc) (rule : regex * template) :
  rule ∈ patterns ->
  changes_made (apply_rule a rule)
  = changes_made a + length (findall rule.1 (content a)).
Proof.
  intros Hin. pose proof patterns_relabel as Hall.
  rewrite Forall_forall in Hall. specialize (Hall _ Hin).
  unfold apply_rule. destruct (decide _) as [E|E]; cbn [changes_made]; [|done].
  apply (sub_from_same rule _ Hall) in E. unfold findall. rewrite E. cbn. lia.
Qed.

Lemma apply_rule_counts_matches_witness :
  changes_made (apply_rule (Acc two_calls_text 0 []) (catch_all "log")) = 1.
Proof.
  rewrite (apply_rule_counts_matches (Acc two_calls_text 0 []) (catch_all "log")).
  - vm_compute. reflexivity.
  - eapply list_elem_of_lookup_2. by instantiate (1 := 3).
Defined.

End RuleCount.

(** ** Where the rules can match *)

Section Heads.

(** A match of a rule of the script starts with one of the three heads. *)
Lemma rule_match_head (rule : regex * template) (s : text) :
  rule ∈ patterns ->
  is_Some (run rule.1 s) ->
  exists h, h ∈ call_heads /\ Str.starts h s = true.
Proof.
  intros Hin [[ts rest] Hr]. unfold patterns in Hin.
  assert (Hlog : forall p, run (lit "console.log(" ++ p) s = Some (ts, rest) ->
            exists h, h ∈ call_heads /\ Str.starts h s = true).
  { intros p (s1 & ts1 & -> & _)%run_chrs_Some. exists (s2l "console.log(").
    split; [by left | apply starts_app]. }
  assert (Herr : forall p, run (lit "console.error(" ++ p) s = Some (ts, rest) ->
            exists h, h ∈ call_heads /\ Str.starts h s = true).
  { intros p (s1 & ts1 & -> & _)%run_chrs_Some. exists (s2l "console.error(").
    split; [right; by left | apply starts_app]. }
  assert (Hwarn : forall p, run (lit "console.warn(" ++ p) s = Some (ts, rest) ->
            exists h, h ∈ call_heads /\ Str.starts h s = true).
  { intros p (s1 & ts1 & -> & _)%run_chrs_Some. exists (s2l "console.warn(").
    split; [right; right; by left | apply starts_app]. }
  repeat (apply elem_of_cons in Hin as [->|Hin]); cbn [fst] in Hr;
    [ eapply Hlog, Hr | eapply Hlog, Hr | eapply Hlog, Hr | eapply Hlog, Hr
    | eapply Herr, Hr | eapply Herr, Hr | eapply Herr, Hr | eapply Herr, Hr
    | eapply Hwarn, Hr | eapply Hwarn, Hr | eapply Hwarn, Hr | eapply Hwarn, Hr
    | by apply elem_of_nil in Hin ].
Qed.

Lemma contains_starts (h before at_ : text) :
  Str.starts h at_ = true -> Str.contains h (before ++ at_) = true.
Proof.
  intros (r & ->)%starts_iff. apply contains_app.
Qed.

(** X1: a text that holds none of [console.log(], [console.error(] and
    [console.warn(] goes through the loop over the rules untouched: text,
    count and printed lines stay as they are.  Calls of other methods of
    [console] are never rewritten. *)
Theorem other_methods_untouched (a : acc) :
  Forall (fun h => Str.contains h (content a) = false) call_heads ->
  fold_left apply_rule patterns a = a.
Proof.
  intros Hh. apply fold_rules_unchanged. apply Forall_forall. intros rule Hin.
  destruct (findall rule.1 (content a)) as [|x l] eqn:Hf; [done|].
  assert (Hm : matches_from rule.1 (content a) 0 <> []).
  { intros E. apply findall_nil in E. by rewrite E in Hf. }
  destruct (matches_from rule.1 (content a) 0) as [|ts l'] eqn:Hts; [done|].
  destruct (matches_from_found rule.1 (content a) 0 ts)
    as (before & at_ & rest & Hc & Hr); [rewrite Hts; by left|].
  destruct (rule_match_head rule at_ Hin) as (h & Hhin & Hs); [by eexists|].
  rewrite Forall_forall in Hh. specialize (Hh h Hhin).
  rewrite Hc, (contains_starts _ _ _ Hs) in Hh. done.
Qed.

Lemma other_methods_untouched_witness :
  fold_left apply_rule patterns (Acc info_text 0 []) = Acc info_text 0 [].
Proof.
  apply (other_methods_untouched (Acc info_text 0 [])).
  unfold call_heads.
  repeat (apply List.Forall_cons; [vm_compute; reflexivity|]).
  apply List.Forall_nil.
Defined.

End Heads.

(** ** What the loop over the rules keeps *)

Section Kept.

Lemma sub_from_length (rule : regex * template) (s : text) (skip : nat) :
  relabels rule ->
  length (sub_from rule.1 rule.2 s skip) + length (matches_from rule.1 s skip)
  = length (drop skip s).
Proof.
  intros Hrule. revert skip.
  induction s as [|c s IH]; intros skip; cbn [sub_from matches_from].
  - rewrite drop_nil. destruct (run rule.1 []) as [[ts rest]|] eqn:Hr; [|done].
    destruct (Hrule _ _ _ Hr) as (y & Hy & _).
    apply run_consumes in Hr. rewrite Hy in Hr. discriminate.
  - destruct skip as [|k]; [|apply IH]. rewrite drop_0.
    destruct (run rule.1 (c :: s)) as [[ts rest]|] eqn:Hr.
    + destruct (Hrule _ _ _ Hr) as (y & Hy & ->).
      apply run_consumes in Hr. rewrite Hy in *.
      cbn [s2l list_ascii_of_string app] in Hr. injection Hr as -> ->.
      cbn [s2l list_ascii_of_string app length Nat.sub].
      specialize (IH (S (S (S (S (S (S (length y)))))))).
      cbn [drop] in IH. rewrite drop_app_length in IH.
      rewrite !length_app in *. cbn [length]. lia.
    + cbn [length]. specialize (IH 0). rewrite drop_0 in IH. lia.
Qed.

Lemma apply_rule_length (a : acc) (rule : regex * template) :
  relabels rule ->
  length (content (apply_rule a rule)) + changes_made (apply_rule a rule)
  = length (content a) + changes_made a.
Proof.
  intros Hrule. unfold apply_rule. destruct (decide _); cbn [content changes_made]; [done|].
  pose proof (sub_from_length rule (content a) 0 Hrule) as H.
  rewrite drop_0 in H. unfold sub, findall. rewrite length_map. lia.
Qed.

(** X2: along the loop over the rules the length of the text and the
    count move together: every counted replacement makes the text one
    character shorter, and nothing else changes its length. *)
Theorem rule_pass_length (a : acc) :
  length (content (fold_left apply_rule patterns a))
    + changes_made (fold_left apply_rule patterns a)
  = length (content a) + changes_made a.
Proof.
  pose proof patterns_relabel as Hrs. revert a.
  induction Hrs as [|r rules Hr _ IH]; intros a; cbn [fold_left]; [done|].
  rewrite IH. by apply apply_rule_length.
Qed.

Lemma count_char_app (c : ascii) (s t : text) :
  count_char c (s ++ t) = count_char c s + count_char c t.
Proof. induction s as [|a s IH]; cbn [app count_char]; [done|]. rewrite IH. lia. Qed.

Lemma relabel_count_char (c : ascii) (s t : text) :
  mem c (s2l "consolegr") = false ->
  relabel s t -> count_char c s = count_char c t.
Proof.
  intros Hc Hr. cbn [mem s2l list_ascii_of_string existsb] in Hc.
  repeat (apply orb_false_iff in Hc as [? Hc]).
  induction Hr as [|a s t Hr IH|s t Hr IH].
  - done.
  - cbn [count_char]. by rewrite IH.
  - cbn [s2l list_ascii_of_string app count_char].
    repeat match goal with H : Ascii.eqb c _ = false |- _ => rewrite H; clear H end.
    cbn. exact IH.
Qed.

(** X3: the loop over the rules changes no character but the letters of
    [console] and [logger]: any other character, a newline, a quote or a
    parenthesis for instance, stands in the text as often after the loop
    as before.  The rules never add or remove a line. *)
Theorem rule_pass_keeps_chars (c : ascii) (a : acc) :
  mem c (s2l "consolegr") = false ->
  count_char c (content (fold_left apply_rule patterns a)) = count_char c (content a).
Proof.
  intros Hc.
  apply (fold_rules_keep (fun t => count_char c t = count_char c (content a)));
    [|done].
  intros s t Hr <-. symmetry. by apply relabel_count_char.
Qed.

Lemma rule_pass_keeps_chars_witness :
  count_char newline
    (content (fold_left apply_rule patterns (Acc two_calls_text 0 []))) = 2.
Proof.
  rewrite (rule_pass_keeps_chars newline (Acc two_calls_text 0 []));
    vm_compute; reflexivity.
Defined.

End Kept.

(** ** What the import pattern finds *)

Section ImportShape.

(** A lazy star stops at the first place the rest of the pattern matches. *)
Lemma lazy_Some_first (k : cls) (cont : text -> result) (s : text)
    (ts : list tok) (rest : text) :
  lazy k cont s = Some (ts, rest) ->
  exists u v ts',
    s = u ++ v /\ ts = map TChr u ++ ts' /\ cont v = Some (ts', rest)
    /\ Forall (fun a => accepts k a = true) u
    /\ (forall u1 u2, u = u1 ++ u2 -> u2 <> [] -> cont (u2 ++ v) = None).
Proof.
  revert ts. induction s as [|a s IH]; intros ts; cbn [lazy].
  - destruct (cont []) as [r|] eqn:Hc; [|done].
    intros [= ->]. exists [], [], ts. split_and!; try done.
    intros u1 u2 Hu. by destruct u1, u2.
  - destruct (cont (a :: s)) as [r|] eqn:Hc.
    + intros [= ->]. exists [], (a :: s), ts. split_and!; try done.
      intros u1 u2 Hu. by destruct u1, u2.
    + destruct (accepts k a) eqn:Ha; [|done].
      intros (ts2 & -> & Hg)%push_Some.
      destruct (IH _ Hg) as (u & v & ts' & -> & -> & Hc' & Hu & Hmin).
      exists (a :: u), v, ts'. split_and!; try done; [by constructor|].
      intros u1 u2 Hsplit Hne. destruct u1 as [|b u1]; cbn [app] in Hsplit.
      * by subst u2.
      * injection Hsplit as -> ->. by apply (Hmin u1 u2).
Qed.

Lemma run_one_Some (k : cls) (p : regex) (s : text) (ts : list tok) (rest : text) :
  run (One k :: p) s = Some (ts, rest) ->
  exists a s' ts',
    s = a :: s' /\ accepts k a = true /\ ts = TChr a :: ts'
    /\ run p s' = Some (ts', rest).
Proof.
  cbn [run]. destruct s as [|a s]; [done|]. destruct (accepts k a) eqn:Ha; [|done].
  intros (ts' & -> & Hr)%push_Some. by exists a, s, ts'.
Qed.

Lemma run_open_Some (p : regex) (s : text) (ts : list tok) (rest : text) :
  run (Open :: p) s = Some (ts, rest) ->
  exists ts', ts = TOpen :: ts' /\ run p s = Some (ts', rest).
Proof. cbn [run]. apply push_Some. Qed.

Lemma run_lazy_Some (k : cls) (p : regex) (s : text) (ts : list tok) (rest : text) :
  run (LazyStar k :: p) s = Some (ts, rest) ->
  exists u v ts',
    s = u ++ v /\ ts = map TChr u ++ ts' /\ run p v = Some (ts', rest)
    /\ Forall (fun a => accepts k a = true) u
    /\ (forall u1 u2, u = u1 ++ u2 -> u2 <> [] -> run p (u2 ++ v) = None).
Proof. apply (lazy_Some_first k (run p)). Qed.

Lemma import_pattern_eq :
  import_pattern
  = Open :: map Chr (s2l "import")
      ++ LazyStar Dot :: map Chr (s2l "from")
      ++ LazyStar Dot :: One quotes :: LazyStar Dot :: [One quotes; Close].
Proof. reflexivity. Qed.

Lemma quotes_accepts (a : ascii) :
  accepts quotes a = true -> a = dquote \/ a = squote.
Proof.
  cbn. rewrite orb_false_r, orb_true_iff. intros [H|H]; apply Ascii.eqb_eq in H; auto.
Qed.

Lemma dot_accepts (u : text) :
  Forall (fun a => accepts Dot a = true) u -> Forall (fun a => a <> newline) u.
Proof.
  intros H. eapply Forall_impl; [exact H|].
  intros a. cbn. intros Ha%negb_true_iff%Ascii.eqb_neq. done.
Qed.

(** X4: what [findall] reports for the import pattern.  It stands in the
    text, starts with [import], goes on to a [from], a quote, and ends at
    the first quote after that one, of either kind; and it holds no
    newline: an import statement written over several lines is not found
    as a whole. *)
Theorem import_found_shape (s x : text) :
  x ∈ findall import_pattern s ->
  exists u1 u2 u3 q1 q2,
    x = s2l "import" ++ u1 ++ s2l "from" ++ u2 ++ q1 :: u3 ++ [q2]
    /\ (q1 = dquote \/ q1 = squote) /\ (q2 = dquote \/ q2 = squote)
    /\ (dquote ∉ u3) /\ (squote ∉ u3)
    /\ Forall (fun a => a <> newline) x
    /\ Str.contains x s = true.
Proof.
  intros Hx. pose proof (import_found_occurs s x Hx) as [_ Hocc].
  unfold findall in Hx. apply list_elem_of_fmap in Hx as (ts & -> & Hts).
  apply matches_from_found in Hts as (before & at_ & rest & -> & Hr).
  rewrite import_pattern_eq in Hr.
  apply run_open_Some in Hr as (ts0 & -> & Hr).
  apply run_chrs_Some in Hr as (s1 & ts1 & -> & -> & Hr).
  apply run_lazy_Some in Hr as (u1 & v1 & ts2 & -> & -> & Hr & Hu1 & _).
  apply run_chrs_Some in Hr as (s2 & ts3 & -> & -> & Hr).
  apply run_lazy_Some in Hr as (u2 & v2 & ts4 & -> & -> & Hr & Hu2 & _).
  apply run_one_Some in Hr as (q1 & s3 & ts5 & -> & Hq1 & -> & Hr).
  apply run_lazy_Some in Hr as (u3 & v3 & ts6 & -> & -> & Hr & Hu3 & Hmin).
  apply run_one_Some in Hr as (q2 & s4 & ts7 & -> & Hq2 & -> & Hr).
  cbn [run push] in Hr. injection Hr as <- <-.
  assert (Hnq : forall a, a ∈ u3 -> accepts quotes a = false).
  { intros a (l1 & l2 & ->)%list_elem_of_split.
    destruct (accepts quotes a) eqn:Ha; [|done].
    specialize (Hmin l1 (a :: l2) eq_refl ltac:(done)).
    cbn [app run] in Hmin. by rewrite Ha in Hmin. }
  exists u1, u2, u3, q1, q2.
  assert (E : found (TOpen :: map TChr (s2l "import") ++ map TChr u1
                     ++ map TChr (s2l "from") ++ map TChr u2
                     ++ TChr q1 :: map TChr u3 ++ [TChr q2; TClose])
              = s2l "import" ++ u1 ++ s2l "from" ++ u2 ++ q1 :: u3 ++ [q2]).
  { unfold found. cbn [groups].
    rewrite !until_close_chrs_app. cbn [until_close].
    by rewrite until_close_chrs_app. }
  rewrite E in *. split_and!; try done.
  - by apply quotes_accepts.
  - by apply quotes_accepts.
  - intros Hin%Hnq. done.
  - intros Hin%Hnq. done.
  - apply dot_accepts in Hu1, Hu2, Hu3.
    repeat (apply Forall_app; split); try done.
    + by repeat constructor.
    + by repeat constructor.
    + apply Forall_cons. split; [by destruct (quotes_accepts _ Hq1) as [-> | ->]|].
      apply Forall_app. split; [done|].
      apply Forall_singleton. by destruct (quotes_accepts _ Hq2) as [-> | ->].
Qed.

Lemma import_found_shape_witness :
  findall import_pattern multi_line_import
  = [s2l "import b from " ++ dquote :: s2l "b'"]
  /\ Forall (fun a => a <> newline) (s2l "import b from " ++ dquote :: s2l "b'").
Proof.
  split; [vm_compute; reflexivity|].
  destruct (import_found_shape multi_line_import
              (s2l "import b from " ++ dquote :: s2l "b'"))
    as (u1 & u2 & u3 & q1 & q2 & _ & _ & _ & _ & _ & H & _).
  - vm_compute. by left.
  - exact H.
Defined.

End ImportShape.

(** ** What the run leaves alone *)

Section Frame.

(** X7: the run creates no file and removes none, and a file that is not
    in the list keeps its content: only files that are listed and are
    there can change. *)
Theorem main_only_listed_files (paths : list string) (w : world) :
  (forall p, files (main_on paths w).1 !! p = None <-> files w !! p = None)
  /\ (forall p, p ∉ paths -> files (main_on paths w).1 !! p = files w !! p).
Proof.
  destruct (main_loop_total paths 0 w) as (w1 & counts & Hm & _ & _ & _ & Hd & Hq & _).
  unfold main_on. rewrite Hm. cbn [fst print_all files]. by split.
Qed.

Lemma main_loop_all_missing (paths : list string) (total_changes : nat) (w : world) :
  Forall (fun p => files w !! p = None) paths ->
  main_loop paths total_changes w
  = (World (files w) (trace w ++ map (fun p => Print (FileNotFound p)) paths),
     Returned total_changes).
Proof.
  intros H. revert w H. induction paths as [|p paths IH]; intros w H.
  - cbn. rewrite app_nil_r. by destruct w.
  - apply Forall_cons in H as [Hp H]. cbn [main_loop]. rewrite Hp.
    rewrite IH by done. unfold print_all. cbn [files trace map].
    by rewrite <- app_assoc.
Qed.

(** X8: when none of the listed files is there, the run writes nothing:
    the files stay as they are, each path is reported as not found, in
    order, and the total printed is 0. *)
Theorem main_all_missing (paths : list string) (w : world) :
  Forall (fun p => files w !! p = None) paths ->
  main_on paths w
  = (World (files w)
       (trace w ++ map (fun p => Print (FileNotFound p)) paths
          ++ [Print (TotalChanges 0); Print AllReplaced]),
     Returned tt).
Proof.
  intros H. unfold main_on. rewrite main_loop_all_missing by done.
  unfold print_all. cbn [files trace map]. by rewrite <- app_assoc.
Qed.

Lemma main_all_missing_witness :
  main (World ∅ [])
  = (World ∅ (map (fun p => Print (FileNotFound p)) files_to_process
                ++ [Print (TotalChanges 0); Print AllReplaced]),
     Returned tt).
Proof.
  apply (main_all_missing files_to_process (World ∅ [])).
  unfold files_to_process.
  repeat (apply List.Forall_cons; [apply lookup_empty|]). apply List.Forall_nil.
Defined.

End Frame.

(** ** A text with one call *)

Section OneCall.

Lemma relabels_console (rule : regex * template) (s : text) :
  relabels rule -> is_Some (run rule.1 s) -> Str.starts (s2l "console") s = true.
Proof.
  intros Hrule [[ts rest] Hr]. destruct (Hrule _ _ _ Hr) as (y & Hy & _).
  apply run_consumes in Hr. rewrite Hr, Hy, <- app_assoc. apply starts_app.
Qed.

Lemma relabels_no_console (rule : regex * template) (s : text) :
  relabels rule -> Str.starts (s2l "console") s = false -> run rule.1 s = None.
Proof.
  intros Hrule Hs. destruct (run rule.1 s) as [r|] eqn:Hr; [|done].
  rewrite (relabels_console rule s Hrule) in Hs; [done | by rewrite Hr].
Qed.

Lemma occurrences_zero_cons (m : text) (c : ascii) (s : text) :
  occurrences m (c :: s) = 0 ->
  Str.starts m (c :: s) = false /\ occurrences m s = 0.
Proof.
  cbn [occurrences]. destruct (Str.starts m (c :: s)); [lia|]. by split; [|lia].
Qed.

(** Where [console] stands nowhere, a rule finds nothing. *)
Lemma no_console_no_match (rule : regex * template) (s : text) (skip : nat) :
  relabels rule ->
  occurrences (s2l "console") s = 0 ->
  matches_from rule.1 s skip = [].
Proof.
  intros Hrule. revert skip. induction s as [|c s IH]; intros skip Ho.
  - cbn [matches_from]. by rewrite (relabels_no_console rule []).
  - apply occurrences_zero_cons in Ho as [Hs Ho]. cbn [matches_from].
    destruct skip as [|k]; [|by apply IH].
    rewrite (relabels_no_console rule _ Hrule Hs). by apply IH.
Qed.

Lemma occurrences_one_cons (m : text) (c : ascii) (pre x : text) :
  occurrences m (c :: pre ++ m ++ x) = 1 ->
  Str.starts m (c :: pre ++ m ++ x) = false /\ occurrences m (pre ++ m ++ x) = 1.
Proof.
  cbn [occurrences].
  pose proof (occurrences_app m pre (m ++ x)). pose proof (occurrences_here m x).
  destruct (Str.starts m (c :: pre ++ m ++ x)); [lia|]. by split; [|lia].
Qed.

Lemma occurrences_console_here (y : text) :
  occurrences (s2l "console") (s2l "console" ++ y) = 1 ->
  occurrences (s2l "console") (s2l "onsole" ++ y) = 0.
Proof.
  intros Ho. pose proof (starts_app (s2l "console") y) as E.
  change (s2l "console" ++ y) with ("c" :: (s2l "onsole" ++ y)) in *.
  cbn [occurrences] in Ho. rewrite E in Ho. lia.
Qed.

Lemma occurrences_console_logger (y : text) :
  occurrences (s2l "console") (s2l "logger" ++ y) = occurrences (s2l "console") y.
Proof. reflexivity. Qed.

(** A rule on a text in which [console] stands once: it finds at most the
    one match there, and replaces it. *)
Lemma one_site (rule : regex * template) (pre y : text) :
  relabels rule ->
  occurrences (s2l "console") (pre ++ s2l "console" ++ y) = 1 ->
  match run rule.1 (s2l "console" ++ y) with
  | Some (ts, _) =>
      matches_from rule.1 (pre ++ s2l "console" ++ y) 0 = [ts]
      /\ sub rule.1 rule.2 (pre ++ s2l "console" ++ y) = pre ++ s2l "logger" ++ y
  | None => matches_from rule.1 (pre ++ s2l "console" ++ y) 0 = []
  end.
Proof.
  intros Hrule. unfold sub. induction pre as [|c pre IH]; intros Ho.
  - cbn [app] in *. pose proof (occurrences_console_here y Ho) as Ht.
    change (s2l "console" ++ y) with ("c" :: (s2l "onsole" ++ y)).
    remember (s2l "onsole" ++ y) as tl eqn:Etl.
    cbn [matches_from sub_from].
    destruct (run rule.1 ("c" :: tl)) as [[ts rest]|] eqn:Hr;
      [|by apply no_console_no_match].
    rewrite (no_console_no_match rule tl _ Hrule Ht). split; [done|].
    destruct (Hrule _ _ _ Hr) as (y' & Hy & ->).
    apply run_consumes in Hr. rewrite Hy in *.
    rewrite sub_from_no_match by (by apply no_console_no_match).
    subst tl. cbn [s2l list_ascii_of_string app] in Hr. injection Hr as ->.
    cbn [s2l list_ascii_of_string app length Nat.sub drop].
    by rewrite drop_app_length.
  - apply occurrences_one_cons in Ho as [Hs Ho]. specialize (IH Ho).
    cbn [app matches_from sub_from].
    rewrite (relabels_no_console rule _ Hrule Hs).
    destruct (run rule.1 (s2l "console" ++ y)) as [[ts rest]|]; [|done].
    destruct IH as [-> ->]. done.
Qed.

(** Putting [logger] where the one [console] stood brings no [console]
    about. *)
Lemma starts_console_logger (pre y : text) :
  Str.starts (s2l "console") (pre ++ s2l "logger" ++ y) = true ->
  Str.starts (s2l "console") (pre ++ s2l "console" ++ y) = true.
Proof.
  do 7 (destruct pre as [|? pre];
        [cbn; intros H; repeat (apply andb_true_iff in H as [? H]); done|]).
  done.
Qed.

Lemma no_new_console (pre y : text) :
  occurrences (s2l "console") (pre ++ s2l "console" ++ y) = 1 ->
  occurrences (s2l "console") (pre ++ s2l "logger" ++ y) = 0.
Proof.
  induction pre as [|c pre IH]; intros Ho.
  - cbn [app] in *. apply occurrences_console_here in Ho.
    pose proof (occurrences_app (s2l "console") (s2l "onsole") y).
    rewrite occurrences_console_logger. lia.
  - pose proof (occurrences_one_cons _ _ _ _ Ho) as [Hs Ho'].
    cbn [app occurrences].
    destruct (Str.starts (s2l "console") (c :: pre ++ s2l "logger" ++ y)) eqn:Hl.
    + apply (starts_console_logger (c :: pre) y) in Hl. cbn [app] in Hl. congruence.
    + by rewrite IH.
Qed.

Lemma one_site_fold (rules : list (regex * template)) (pre y : text) (a : acc) :
  Forall relabels rules ->
  content a = pre ++ s2l "console" ++ y ->
  occurrences (s2l "console") (pre ++ s2l "console" ++ y) = 1 ->
  (Exists (fun rule => is_Some (run rule.1 (s2l "console" ++ y))) rules ->
   content (fold_left apply_rule rules a) = pre ++ s2l "logger" ++ y
   /\ changes_made (fold_left apply_rule rules a) = changes_made a + 1)
  /\ (Forall (fun rule => run rule.1 (s2l "console" ++ y) = None) rules ->
      fold_left apply_rule rules a = a).
Proof.
  intros Hrs. revert a. induction Hrs as [|r rules Hr Hrs IH]; intros a Ha Ho.
  { split; [by intros ?%Exists_nil | done]. }
  cbn [fold_left]. pose proof (one_site r pre y Hr Ho) as H1.
  destruct (run r.1 (s2l "console" ++ y)) as [[ts rest]|] eqn:E.
  - destruct H1 as [Hm Hs].
    split; [intros _ | intros [Hn _]%Forall_cons; cbn beta in Hn; congruence].
    assert (Ea : apply_rule a r
                 = Acc (pre ++ s2l "logger" ++ y) (changes_made a + 1)
                       (printed a ++ [Replaced 1 r.1])).
    { unfold apply_rule, findall. rewrite Ha, Hs, Hm. cbn [map length].
      destruct (decide _) as [Heq|_]; [|done].
      apply app_inv_head in Heq. discriminate. }
    rewrite Ea, fold_rules_unchanged; [done|]. cbn [content].
    eapply Forall_impl; [exact Hrs|]. intros r' Hr'. cbn beta.
    apply findall_nil, no_console_no_match; [done | by apply no_new_console].
  - rewrite apply_rule_unchanged by (rewrite Ha; by apply findall_nil).
    destruct (IH a Ha Ho) as [IH1 IH2]. split.
    + intros [[? Hx]|Hx]%Exists_cons; [cbn beta in Hx; congruence | by apply IH1].
    + intros [_ Hx]%Forall_cons. by apply IH2.
Qed.

(** X9: a text in which [console] stands once, and on which the import
    step does nothing.  When some rule matches at that place, the rewrite
    puts [logger] there, changes nothing else and counts one change; when
    no rule matches there, the text and the count stay as they are. *)
Theorem one_call_rewritten (file_path : string) (pre y : text) :
  occurrences (s2l "console") (pre ++ s2l "console" ++ y) = 1 ->
  has_logger_import (pre ++ s2l "console" ++ y) = true
  \/ findall import_pattern (pre ++ s2l "console" ++ y) = [] ->
  (Exists (fun rule => is_Some (run rule.1 (s2l "console" ++ y))) patterns ->
   content (rewrite file_path (pre ++ s2l "console" ++ y)) = pre ++ s2l "logger" ++ y
   /\ changes_made (rewrite file_path (pre ++ s2l "console" ++ y)) = 1)
  /\ (Forall (fun rule => run rule.1 (s2l "console" ++ y) = None) patterns ->
      rewrite file_path (pre ++ s2l "console" ++ y)
      = Acc (pre ++ s2l "console" ++ y) 0 [Processing file_path]).
Proof.
  intros Ho Hi. rewrite rewrite_eq, import_step_done by exact Hi.
  apply (one_site_fold patterns pre y
           (Acc (pre ++ s2l "console" ++ y) 0 [Processing file_path])
           patterns_relabel eq_refl Ho).
Qed.

Lemma one_call_rewritten_witness :
  content (rewrite "nodes/x.ts"
             (paren_call_pre ++ s2l "console" ++ s2l ".log(f(x)" ++ paren_call_rest))
  = s2l "if (ok) { logger.log(f(x)); }".
Proof.
  destruct (one_call_rewritten "nodes/x.ts" paren_call_pre
              (s2l ".log(f(x)" ++ paren_call_rest)) as [H _].
  - vm_compute. reflexivity.
  - right. vm_compute. reflexivity.
  - destruct H as [-> _]; [|vm_compute; reflexivity].
    apply Exists_exists. exists (catch_all "log"). split.
    + eapply list_elem_of_lookup_2. by instantiate (1 := 3).
    + vm_compute. by eexists.
Defined.

Lemma catch_all_matches (family : string) (arg rest : text) :
  arg <> [] ->
  rparen ∉ arg ->
  is_Some (run (catch_all family).1 (console_call family arg ++ rest)).
Proof.
  intros Hne Hnp. destruct arg as [|a arg]; [done|].
  apply not_elem_of_cons in Hnp as [Ha Hnp].
  pose proof (accepts_not_rparen _ Hnp) as Hall.
  assert (Hacc : accepts (NoneOf [rparen]) a = true).
  { cbn. rewrite orb_false_r. apply negb_true_iff, Ascii.eqb_neq. by intros ->. }
  unfold catch_all, console_call, lit. cbn [fst].
  rewrite <- !app_assoc, run_chrs.
  change (run ([Open; Plus (NoneOf [rparen]); Close] ++ map Chr (s2l ")"))
            ((a :: arg) ++ [rparen] ++ rest))
    with (push TOpen
            (if accepts (NoneOf [rparen]) a
             then push (TChr a)
                    (greedy (NoneOf [rparen]) (run [Close; Chr rparen])
                       (arg ++ rparen :: rest))
             else None)).
  rewrite Hacc, greedy_upto; [|done|done|by eexists].
  cbn [run]. rewrite Ascii.eqb_refl. cbn [push pushes]. by eexists.
Qed.

(** X10: a call [console.f(arg)] of one of the three families, with an
    argument that is not empty and holds no closing parenthesis, in a text
    where [console] stands only there and on which the import step does
    nothing: the rewrite turns it into [logger.f(arg)], keeps the text
    before and after it (what follows may start with further closing
    parentheses, as after [console.log(f(x))]) and counts one change. *)
Theorem plain_call_rewritten (file_path family : string) (pre arg rest : text) :
  family ∈ ["log"; "error"; "warn"]%string ->
  arg <> [] ->
  rparen ∉ arg ->
  occurrences (s2l "console") (pre ++ console_call family arg ++ rest) = 1 ->
  has_logger_import (pre ++ console_call family arg ++ rest) = true
  \/ findall import_pattern (pre ++ console_call family arg ++ rest) = [] ->
  content (rewrite file_path (pre ++ console_call family arg ++ rest))
  = pre ++ logger_call family arg ++ rest
  /\ changes_made (rewrite file_path (pre ++ console_call family arg ++ rest)) = 1.
Proof.
  intros Hf Hne Hnp Ho Hi.
  pose proof (catch_all_matches family arg rest Hne Hnp) as Hm.
  assert (Hin : catch_all family ∈ patterns).
  { destruct catch_all_in_patterns as (H1 & H2 & H3).
    repeat (apply elem_of_cons in Hf as [->|Hf]);
      [eapply list_elem_of_lookup_2; exact H1
      |eapply list_elem_of_lookup_2; exact H2
      |eapply list_elem_of_lookup_2; exact H3
      |by apply elem_of_nil in Hf]. }
  assert (Ec : console_call family arg ++ rest
               = s2l "console" ++ s2l ("." +:+ family +:+ "(") ++ arg ++ rparen :: rest).
  { unfold console_call. rewrite <- !app_assoc. reflexivity. }
  assert (El : logger_call family arg ++ rest
               = s2l "logger" ++ s2l ("." +:+ family +:+ "(") ++ arg ++ rparen :: rest).
  { unfold logger_call. rewrite <- !app_assoc. reflexivity. }
  rewrite Ec in *. rewrite El.
  rewrite rewrite_eq, import_step_done by exact Hi.
  apply (one_site_fold patterns pre _ (Acc _ 0 [Processing file_path])
           patterns_relabel eq_refl Ho).
  apply Exists_exists. by exists (catch_all family).
Qed.

Lemma plain_call_rewritten_witness :
  content (rewrite "nodes/x.ts"
             (s2l "a; " ++ console_call "warn" (s2l "x, y") ++ s2l ";"))
  = s2l "a; logger.warn(x, y);".
Proof.
  destruct (plain_call_rewritten "nodes/x.ts" "warn" (s2l "a; ") (s2l "x, y") (s2l ";"))
    as [-> _].
  - by repeat constructor.
  - discriminate.
  - intros H. by repeat (apply elem_of_cons in H as [H|H]; [discriminate|]);
      apply elem_of_nil in H.
  - vm_compute. reflexivity.
  - right. vm_compute. reflexivity.
  - vm_compute. reflexivity.
Defined.

End OneCall.

(** ** The count and the text *)

Section CountAndText.

Lemma apply_rule_same_or_more (a : acc) (rule : regex * template) :
  apply_rule a rule = a \/ changes_made a < changes_made (apply_rule a rule).
Proof.
  unfold apply_rule. destruct (decide _) as [E|E]; [by left|right].
  cbn [changes_made].
  destruct (findall rule.1 (content a)) as [|x l] eqn:Hf; [|cbn; lia].
  by rewrite (sub_no_match _ _ _ Hf) in E.
Qed.

Lemma apply_rule_count_mono (a : acc) (rule : regex * template) :
  changes_made a <= changes_made (apply_rule a rule).
Proof. destruct (apply_rule_same_or_more a rule) as [-> | ?]; lia. Qed.

Lemma fold_rules_count_mono (rules : list (regex * template)) (a : acc) :
  changes_made a <= changes_made (fold_left apply_rule rules a).
Proof.
  revert a. induction rules as [|r rules IH]; intros a; cbn [fold_left]; [done|].
  etrans; [apply (apply_rule_count_mono a r) | apply IH].
Qed.

Lemma fold_rules_same_or_more (rules : list (regex * template)) (a : acc) :
  fold_left apply_rule rules a = a
  \/ changes_made a < changes_made (fold_left apply_rule rules a).
Proof.
  revert a. induction rules as [|r rules IH]; intros a; cbn [fold_left]; [by left|].
  destruct (apply_rule_same_or_more a r) as [-> | Hlt]; [apply IH|].
  right. pose proof (fold_rules_count_mono rules (apply_rule a r)). lia.
Qed.

Lemma fold_rules_length (rules : list (regex * template)) (a : acc) :
  Forall relabels rules ->
  length (content (fold_left apply_rule rules a))
    + changes_made (fold_left apply_rule rules a)
  = length (content a) + changes_made a.
Proof.
  intros Hrs. revert a.
  induction Hrs as [|r rules Hr _ IH]; intros a; cbn [fold_left]; [done|].
  rewrite IH. by apply apply_rule_length.
Qed.

(** X11: after a rewrite the text holds a logger import whenever the
    original held one or held any import: the rules never take a marker
    out, and an inserted line always carries one. *)
Theorem rewrite_leaves_marker (file_path : string) (original_content : text) :
  has_logger_import original_content = true
  \/ findall import_pattern original_content <> [] ->
  has_logger_import (content (rewrite file_path original_content)) = true.
Proof.
  intros H. rewrite rewrite_eq.
  apply (fold_rules_keep (fun c => has_logger_import c = true)).
  { intros s t Hr. by apply has_logger_import_relabel. }
  destruct (add_logger_import_settled file_path
              (Acc original_content 0 [Processing file_path])) as [Hm|[E Hn]];
    [done|].
  rewrite E. cbn [content] in *. by destruct H.
Qed.

Lemma rewrite_leaves_marker_witness :
  has_logger_import (content (rewrite "nodes/Function/x.ts" plain_text)) = true.
Proof.
  apply (rewrite_leaves_marker "nodes/Function/x.ts" plain_text).
  right. vm_compute. discriminate.
Defined.

(** X12: the rewrite leaves the text as it was exactly when its count is
    0.  So [process_file] returns the count in both branches, a file is
    written exactly when the count is positive, and no change is ever
    reported for a text that stayed the same. *)
Theorem unchanged_iff_count_zero (file_path : string) (original_content : text) :
  (content (rewrite file_path original_content) = original_content
   <-> changes_made (rewrite file_path original_content) = 0)
  /\ file_changes file_path original_content
     = changes_made (rewrite file_path original_content).
Proof.
  assert (Hiff : content (rewrite file_path original_content) = original_content
                 <-> changes_made (rewrite file_path original_content) = 0).
  { pose proof (add_logger_import_settled file_path
                  (Acc original_content 0 [Processing file_path])) as Hset.
    rewrite rewrite_eq.
    assert (Hstep : add_logger_import file_path
                      (Acc original_content 0 [Processing file_path])
                    = Acc original_content 0 [Processing file_path]
                    \/ (has_logger_import original_content = false
                        /\ changes_made (add_logger_import file_path
                             (Acc original_content 0 [Processing file_path])) = 1)).
    { unfold add_logger_import. cbn [content changes_made printed].
      destruct (has_logger_import original_content); [by left|].
      destruct (last _); [right; by split | by left]. }
    destruct Hstep as [E | [Hno Hone]].
    - rewrite E.
      pose proof (fold_rules_length patterns
                    (Acc original_content 0 [Processing file_path]) patterns_relabel)
        as Hlen.
      destruct (fold_rules_same_or_more patterns
                  (Acc original_content 0 [Processing file_path])) as [-> | Hlt];
        [done|].
      cbn [content changes_made] in *. split; [|lia].
      intros Hc. rewrite Hc in Hlen. lia.
    - pose proof (fold_rules_count_mono patterns
                    (add_logger_import file_path
                       (Acc original_content 0 [Processing file_path]))) as Hmono.
      split; [|lia]. intros Hc.
      assert (Hm : has_logger_import
                     (content (fold_left apply_rule patterns
                        (add_logger_import file_path
                           (Acc original_content 0 [Processing file_path])))) = true).
      { apply (fold_rules_keep (fun c => has_logger_import c = true)).
        { intros s t Hr. by apply has_logger_import_relabel. }
        destruct Hset as [Hm|[E _]]; [done|]. rewrite E in Hone. cbn in Hone. lia. }
      rewrite Hc in Hm. congruence. }
  split; [done|]. unfold file_changes.
  destruct (decide _) as [E|E]; [|done]. symmetry. by apply Hiff.
Qed.

End CountAndText.
